(** * Terraform IAM resources of [deploy/config/tfconfig/iam.go]

    A shallow embedding of the two resource kinds of [iam.go]
    ([ProjectIAMMembers] and [ServiceAccount]) with the part of Go's
    [encoding/json] and [fmt] that their methods call.

    Conventions of the embedding.
    - A Go [string] and a Go [[]byte] are byte sequences: [string].
    - A method with a pointer receiver is a function from the receiver's
      value before the call to the method's results and the receiver's value
      after the call.
    - A [*ProjectIAMMember] is an [option]: [None] is the nil pointer.  The
      methods of [iam.go] never write through such a pointer, so the pointee
      stands for the pointer.
    - A nil slice and an empty slice, a nil map and an empty map, are the same
      value: [iam.go] only ranges over them and hands them to [json.Marshal],
      which (under [omitempty]) does not tell them apart.
    - A Go [map[string]T] is a [gmap string T].
    - A Go value can reach itself through the pointers of a [ForEach] map;
      the embedding holds the finite values that do not, the ones
      [json.Unmarshal] builds and [json.Marshal] encodes without an error.
    - [encoding/json] is the package as it was when [iam.go] was written
      (Go 1.13): the encoder escapes the bytes 8 and 12 as [\u0008] and
      [\u000c], and the scanner puts no bound on the nesting depth. *)

From Stdlib Require Import Ascii String NArith.
From stdpp Require Import base option list gmap strings fin_maps.

Local Open Scope string_scope.

(** ** Go values shared by the methods *)

(** The dynamic type of a non-nil [error]: [fmt.Errorf] carries its formatted
    message; the two errors of [encoding/json] are told apart by type only. *)
Inductive err :=
| Errorf (msg : string)
| SyntaxError
| UnmarshalTypeError.

(** A Go [error]: [None] is [nil]. *)
Definition error := option err.

(** How a call ends: it returns, or it panics (here only on a nil pointer
    dereference). *)
Inductive outcome (A : Type) :=
| Returned (a : A)
| Panicked.
Arguments Returned {A} a.
Arguments Panicked {A}.

(** [fmt.Sprintf("%s %s", a, b)] *)
Definition Sprintf_s_s (a b : string) : string := a ++ " " ++ b.

(** [fmt.Errorf("project must not be set: %v", p)]: [%v] prints a string as it is. *)
Definition Errorf_project_must_not_be_set (p : string) : err :=
  Errorf ("project must not be set: " ++ p).

(** ** [type ProjectIAMMember struct] *)
Module ProjectIAMMember.

#[warnings="-register-all"]
Inductive t := mk {
  Role : string;
  Member : string;
  ForEach : gmap string (option t);
  Project : string;
  DependsOn : list string
}.

(** The zero value of the struct. *)
Definition zero : t := mk "" "" ∅ "" [].

End ProjectIAMMember.

(** ** [type ServiceAccount struct] and its methods *)
Module ServiceAccount.

Record t := mk {
  AccountID : string;
  Project : string;
  DisplayName : string
}.

(** [func (a *ServiceAccount) Init(projectID string) error] *)
Definition Init (a : t) (projectID : string) : error * t :=
  if negb (String.eqb (Project a) "") then
    (Some (Errorf_project_must_not_be_set (Project a)), a)
  else
    (None, mk (AccountID a) projectID (DisplayName a)).

(** [func (a *ServiceAccount) ID() string] *)
Definition ID (a : t) : string * t := (AccountID a, a).

(** [func (a *ServiceAccount) ResourceType() string] *)
Definition ResourceType (a : t) : string * t := ("google_service_account", a).

(** The two lifecycle states of the spec: a project is bound or it is not. *)
Definition initialized (a : t) : Prop := Project a ≠ "".

(** A call of one of the three methods. *)
Inductive call :=
| CallInit (projectID : string)
| CallID
| CallResourceType.

(** The receiver after one call. *)
Definition after (a : t) (c : call) : t :=
  match c with
  | CallInit projectID => snd (Init a projectID)
  | CallID => snd (ID a)
  | CallResourceType => snd (ResourceType a)
  end.

(** The receiver after a sequence of calls, first call first. *)
Definition run (a : t) (cs : list call) : t := foldl after a cs.

End ServiceAccount.

(** ** Go's [unicode/utf8], as far as [encoding/json] uses it *)
Module utf8.

Definition byte (c : ascii) : N := N_of_ascii c.

Definition between (lo hi x : N) : bool := (lo <=? x)%N && (x <=? hi)%N.

(** [utf8.RuneError], U+FFFD *)
Definition RuneError : N := 0xFFFD%N.

(** The six payload bits of a continuation byte. *)
Definition cont (b : N) : N := N.land b 0x3F.

(** [utf8.DecodeRune]: the first rune of [s] and its width in bytes.  An
    encoding that is not valid UTF-8 (a stray continuation byte, an overlong
    form, a surrogate, a value above U+10FFFF, a truncated sequence) yields
    [(RuneError, 1)]; empty input yields [(RuneError, 0)]. *)
Definition DecodeRune (s : string) : N * nat :=
  match s with
  | EmptyString => (RuneError, 0)
  | String c0 s1 =>
    let b0 := byte c0 in
    if (b0 <? 0x80)%N then (b0, 1)
    else if between 0xC2 0xDF b0 then
      match s1 with
      | String c1 _ =>
        if between 0x80 0xBF (byte c1)
        then (N.lor (N.shiftl (N.land b0 0x1F) 6) (cont (byte c1)), 2)
        else (RuneError, 1)
      | _ => (RuneError, 1)
      end
    else if between 0xE0 0xEF b0 then
      let lo := if (b0 =? 0xE0)%N then 0xA0%N else 0x80%N in
      let hi := if (b0 =? 0xED)%N then 0x9F%N else 0xBF%N in
      match s1 with
      | String c1 (String c2 _) =>
        if between lo hi (byte c1) && between 0x80 0xBF (byte c2)
        then (N.lor (N.shiftl (N.land b0 0x0F) 12)
                (N.lor (N.shiftl (cont (byte c1)) 6) (cont (byte c2))), 3)
        else (RuneError, 1)
      | _ => (RuneError, 1)
      end
    else if between 0xF0 0xF4 b0 then
      let lo := if (b0 =? 0xF0)%N then 0x90%N else 0x80%N in
      let hi := if (b0 =? 0xF4)%N then 0x8F%N else 0xBF%N in
      match s1 with
      | String c1 (String c2 (String c3 _)) =>
        if between lo hi (byte c1) && between 0x80 0xBF (byte c2)
           && between 0x80 0xBF (byte c3)
        then (N.lor (N.shiftl (N.land b0 0x07) 18)
                (N.lor (N.shiftl (cont (byte c1)) 12)
                   (N.lor (N.shiftl (cont (byte c2)) 6) (cont (byte c3)))), 4)
        else (RuneError, 1)
      | _ => (RuneError, 1)
      end
    else (RuneError, 1)
  end.

Definition of_bytes (bs : list N) : string :=
  string_of_list_ascii (ascii_of_N <$> bs).

(** [utf8.EncodeRune]: a surrogate or a value above U+10FFFF is written as
    U+FFFD. *)
Definition EncodeRune (r : N) : string :=
  let tail (k : N) := N.lor 0x80 (cont (N.shiftr r k)) in
  if (r <=? 0x7F)%N then of_bytes [r]
  else if (r <=? 0x7FF)%N then of_bytes [N.lor 0xC0 (N.shiftr r 6); tail 0%N]
  else if (0x10FFFF <? r)%N || between 0xD800 0xDFFF r then of_bytes [0xEF; 0xBF; 0xBD]%N
  else if (r <=? 0xFFFF)%N then of_bytes [N.lor 0xE0 (N.shiftr r 12); tail 6%N; tail 0%N]
  else of_bytes [N.lor 0xF0 (N.shiftr r 18); tail 12%N; tail 6%N; tail 0%N].

End utf8.

(** ** Go's [encoding/json] at the types of [iam.go]

    [json.Marshal] is modelled in two steps: the Go value is turned into a
    JSON value ([value_of], following the struct tags), and the JSON value is
    written in the compact form of the encoder ([encode]).  [json.Unmarshal]
    scans and parses the text ([parse], the grammar of RFC 8259 that Go's
    scanner accepts) and then stores the JSON value into the Go value it is
    given ([store_Members] and the functions before it). *)
Module json.

#[warnings="-register-all"]
Inductive value :=
| JNull
| JBool (b : bool)
| JNumber (literal : string)
| JString (s : string)
| JArray (elems : list value)
| JObject (members : list (string * value)).

(** *** Encoding *)

(** The double quote and the backslash. *)
Definition dquote : ascii := "034"%char.
Definition backslash : ascii := "092"%char.

Definition hex_digit (n : N) : ascii :=
  if (n <? 10)%N then ascii_of_N (48 + n) else ascii_of_N (87 + n).

(** One step of the loop of [encodeState.string] (with [escapeHTML], as
    [json.Marshal] sets it): what is written for the rune at the head of a
    non-empty [s], and how many bytes of [s] it takes. *)
Definition string_step (s : string) : string * nat :=
  match s with
  | EmptyString => ("", 0)
  | String c _ =>
    let b := utf8.byte c in
    if (b <? 0x80)%N then
      if Ascii.eqb c dquote || Ascii.eqb c backslash then
        (String backslash (String c ""), 1)
      else if (b =? 10)%N then (String backslash "n", 1)
      else if (b =? 13)%N then (String backslash "r", 1)
      else if (b =? 9)%N then (String backslash "t", 1)
      else if (b <? 0x20)%N || (b =? 38)%N || (b =? 60)%N || (b =? 62)%N then
        (String backslash
           ("u00" ++ String (hex_digit (N.shiftr b 4)) (String (hex_digit (N.land b 0xF)) "")), 1)
      else (String c "", 1)
    else
      match utf8.DecodeRune s with
      | (r, size) =>
        if (r =? utf8.RuneError)%N && Nat.eqb size 1 then (String backslash "ufffd", 1)
        else if (r =? 0x2028)%N then (String backslash "u2028", size)
        else if (r =? 0x2029)%N then (String backslash "u2029", size)
        else (substring 0 size s, size)
      end
  end.

(** The loop itself: [skip] counts the bytes of the current rune that are
    still to be passed over. *)
Fixpoint string_loop (skip : nat) (s : string) : string :=
  match s with
  | EmptyString => ""
  | String _ rest =>
    match skip with
    | S k => string_loop k rest
    | O => let '(out, size) := string_step s in out ++ string_loop (pred size) rest
    end
  end.

(** [encodeState.string]: a Go string as a JSON string literal. *)
Definition quote (s : string) : string :=
  String dquote (string_loop 0 s ++ String dquote "").

(** The compact text of a JSON value. *)
Fixpoint encode (v : value) : string :=
  match v with
  | JNull => "null"
  | JBool true => "true"
  | JBool false => "false"
  | JNumber literal => literal
  | JString s => quote s
  | JArray elems => "[" ++ String.concat "," (List.map encode elems) ++ "]"
  | JObject members =>
    "{" ++ String.concat "," (List.map (λ kv, quote (fst kv) ++ ":" ++ encode (snd kv)) members)
        ++ "}"
  end.

(** Insertion of a map entry by its key, in the byte order Go's [<] gives
    strings: the encoder writes a map's entries sorted by key. *)
Fixpoint insert_entry {A} (kv : string * A) (l : list (string * A)) : list (string * A) :=
  match l with
  | [] => [kv]
  | kv' :: l' =>
    if String.leb (fst kv) (fst kv') then kv :: l else kv' :: insert_entry kv l'
  end.

Definition sort_entries {A} (l : list (string * A)) : list (string * A) :=
  foldr insert_entry [] l.

(** A field tagged [omitempty] is left out when it is empty. *)
Definition omitempty (empty : bool) (name : string) (v : value) : list (string * value) :=
  if empty then [] else [(name, v)].

(** The JSON value [json.Marshal] writes for a [ProjectIAMMember]: its
    fields in declaration order under their tags; [for_each], [project] and
    [depends_on] are [omitempty]; a nil pointer in the map is [null]. *)
Fixpoint value_of (m : ProjectIAMMember.t) : value :=
  let entries :=
    sort_entries (map_to_list
      ((λ p, match p with Some m' => value_of m' | None => JNull end)
         <$> ProjectIAMMember.ForEach m)) in
  JObject
    ([("role", JString (ProjectIAMMember.Role m));
      ("member", JString (ProjectIAMMember.Member m))]
     ++ omitempty (Nat.eqb (size (ProjectIAMMember.ForEach m)) 0) "for_each" (JObject entries)
     ++ omitempty (String.eqb (ProjectIAMMember.Project m) "") "project"
          (JString (ProjectIAMMember.Project m))
     ++ omitempty (Nat.eqb (length (ProjectIAMMember.DependsOn m)) 0) "depends_on"
          (JArray (JString <$> ProjectIAMMember.DependsOn m))).

(** The member of an object under a name (the first one), to read an
    encoder's output. *)
Definition get (name : string) (v : value) : option value :=
  match v with
  | JObject members => snd <$> List.find (λ kv, String.eqb (fst kv) name) members
  | _ => None
  end.

(** A text written with single quotes where JSON has double quotes. *)
Fixpoint with_dquotes (s : string) : string :=
  match s with
  | EmptyString => ""
  | String c rest => String (if Ascii.eqb c "'" then dquote else c) (with_dquotes rest)
  end.

(** [json.Marshal(&ProjectIAMMember{...})]: it cannot fail at this type. *)
Definition Marshal (m : ProjectIAMMember.t) : string * error :=
  (encode (value_of m), None).

(** *** Scanning *)

Inductive token :=
| TLBrace | TRBrace | TLBracket | TRBracket | TColon | TComma
| TString (s : string)
| TNumber (literal : string)
| TTrue | TFalse | TNull.

Definition is_space (c : ascii) : bool :=
  let b := utf8.byte c in ((b =? 32) || (b =? 9) || (b =? 10) || (b =? 13))%N.

Definition is_digit (c : ascii) : bool := utf8.between 48 57 (utf8.byte c).

(** The bytes a number or a literal name is made of. *)
Definition is_word_char (c : ascii) : bool :=
  let b := utf8.byte c in
  is_digit c || utf8.between 97 122 b || utf8.between 65 90 b
  || (b =? 43)%N || (b =? 45)%N || (b =? 46)%N.

Definition punct (c : ascii) : option token :=
  let b := utf8.byte c in
  if (b =? 123)%N then Some TLBrace else if (b =? 125)%N then Some TRBrace
  else if (b =? 91)%N then Some TLBracket else if (b =? 93)%N then Some TRBracket
  else if (b =? 58)%N then Some TColon else if (b =? 44)%N then Some TComma
  else None.

Fixpoint skip_digits (s : string) : string :=
  match s with
  | String c rest => if is_digit c then skip_digits rest else s
  | EmptyString => s
  end.

(** The exponent part of a number, or nothing. *)
Definition exponent_ok (s : string) : bool :=
  match s with
  | EmptyString => true
  | String e rest =>
    if Ascii.eqb e "e" || Ascii.eqb e "E" then
      let ds := match rest with
                | String sign rest' =>
                  if Ascii.eqb sign "+" || Ascii.eqb sign "-" then rest' else rest
                | EmptyString => rest
                end in
      match ds with
      | String d _ => is_digit d && String.eqb (skip_digits ds) ""
      | EmptyString => false
      end
    else false
  end.

(** The fraction and exponent parts of a number, or nothing. *)
Definition fraction_ok (s : string) : bool :=
  match s with
  | String "." (String d rest) => is_digit d && exponent_ok (skip_digits rest)
  | String "." EmptyString => false
  | _ => exponent_ok s
  end.

(** The number grammar of RFC 8259. *)
Definition number_ok (s : string) : bool :=
  let unsigned := match s with String "-" rest => rest | _ => s end in
  match unsigned with
  | String "0" rest => fraction_ok rest
  | String d rest => is_digit d && fraction_ok (skip_digits rest)
  | EmptyString => false
  end.

Definition word_token (w : string) : option token :=
  if String.eqb w "true" then Some TTrue
  else if String.eqb w "false" then Some TFalse
  else if String.eqb w "null" then Some TNull
  else if number_ok w then Some (TNumber w)
  else None.

Definition hex_value (c : ascii) : option N :=
  let b := utf8.byte c in
  if is_digit c then Some (b - 48)%N
  else if utf8.between 97 102 b then Some (b - 87)%N
  else if utf8.between 65 70 b then Some (b - 55)%N
  else None.

(** [getu4]: the code unit of a [\uXXXX] escape at the head of [s]. *)
Definition getu4 (s : string) : option N :=
  match s with
  | String bs (String u (String h3 (String h2 (String h1 (String h0 _))))) =>
    if Ascii.eqb bs backslash && Ascii.eqb u "u" then
      n3 ← hex_value h3; n2 ← hex_value h2; n1 ← hex_value h1; n0 ← hex_value h0;
      Some (N.lor (N.shiftl n3 12) (N.lor (N.shiftl n2 8) (N.lor (N.shiftl n1 4) n0)))
    else None
  | _ => None
  end.

Definition byte_string (b : N) : string := String (ascii_of_N b) "".

(** [s[n:]] *)
Fixpoint drop_bytes (n : nat) (s : string) : string :=
  match n, s with
  | S n', String _ rest => drop_bytes n' rest
  | _, _ => s
  end.

(** One step of [unquote]: the bytes the escape or rune at the head of the
    body of a string literal stands for, and its width.  [None] when the
    literal is not valid JSON. *)
Definition unquote_step (s : string) : option (string * nat) :=
  match s with
  | EmptyString => None
  | String c rest =>
    let b := utf8.byte c in
    if Ascii.eqb c backslash then
      match rest with
      | EmptyString => None
      | String e _ =>
        if Ascii.eqb e dquote || Ascii.eqb e backslash || Ascii.eqb e "/" then
          Some (String e "", 2)
        else if Ascii.eqb e "b" then Some (byte_string 8, 2)
        else if Ascii.eqb e "f" then Some (byte_string 12, 2)
        else if Ascii.eqb e "n" then Some (byte_string 10, 2)
        else if Ascii.eqb e "r" then Some (byte_string 13, 2)
        else if Ascii.eqb e "t" then Some (byte_string 9, 2)
        else if Ascii.eqb e "u" then
          rr ← getu4 s;
          if utf8.between 0xD800 0xDFFF rr then
            match getu4 (drop_bytes 6 s) with
            | Some rr1 =>
              if utf8.between 0xD800 0xDBFF rr && utf8.between 0xDC00 0xDFFF rr1
              then Some (utf8.EncodeRune
                           (N.lor (N.shiftl (rr - 0xD800) 10) (rr1 - 0xDC00) + 0x10000)%N, 12)
              else Some (utf8.EncodeRune utf8.RuneError, 6)
            | None => Some (utf8.EncodeRune utf8.RuneError, 6)
            end
          else Some (utf8.EncodeRune rr, 6)
        else None
      end
    else if (b <? 0x20)%N || Ascii.eqb c dquote then None
    else if (b <? 0x80)%N then Some (String c "", 1)
    else let '(r, size) := utf8.DecodeRune s in Some (utf8.EncodeRune r, size)
  end.

Fixpoint unquote_loop (skip : nat) (s : string) : option string :=
  match s with
  | EmptyString => Some ""
  | String _ rest =>
    match skip with
    | S k => unquote_loop k rest
    | O =>
      '(out, size) ← unquote_step s;
      tl ← unquote_loop (pred size) rest;
      Some (out ++ tl)
    end
  end.

(** [unquote]: the Go string a string literal with body [s] denotes. *)
Definition unquote (s : string) : option string := unquote_loop 0 s.

(** Where the scanner is: between tokens, inside a number or literal name,
    inside a string literal, or just after a backslash in one.  The bytes
    read so far are kept last byte first. *)
Inductive mode :=
| Between
| InWord (seen : list ascii)
| InString (seen : list ascii)
| InEscape (seen : list ascii).

Definition text_of (seen : list ascii) : string := string_of_list_ascii (rev seen).

(** A byte met between tokens; [continue] scans the rest in the given mode. *)
Definition between_tokens (c : ascii) (continue : mode → option (list token))
    : option (list token) :=
  if is_space c then continue Between
  else if Ascii.eqb c dquote then continue (InString [])
  else match punct c with
       | Some t => ts ← continue Between; Some (t :: ts)
       | None => if is_word_char c then continue (InWord [c]) else None
       end.

(** The tokens of a JSON text, or [None] when a token is malformed. *)
Fixpoint scan (m : mode) (s : string) : option (list token) :=
  match s with
  | EmptyString =>
    match m with
    | Between => Some []
    | InWord seen => t ← word_token (text_of seen); Some [t]
    | InString _ | InEscape _ => None
    end
  | String c rest =>
    match m with
    | Between => between_tokens c (λ m', scan m' rest)
    | InWord seen =>
      if is_word_char c then scan (InWord (c :: seen)) rest
      else t ← word_token (text_of seen);
           ts ← between_tokens c (λ m', scan m' rest);
           Some (t :: ts)
    | InString seen =>
      if Ascii.eqb c dquote then
        str ← unquote (text_of seen); ts ← scan Between rest; Some (TString str :: ts)
      else if Ascii.eqb c backslash then scan (InEscape (c :: seen)) rest
      else if (utf8.byte c <? 0x20)%N then None
      else scan (InString (c :: seen)) rest
    | InEscape seen => scan (InString (c :: seen)) rest
    end
  end.

(** *** Parsing *)

(** An array or object that is open, with what it holds so far (last first);
    [FValue] is an object whose member [key] is being read. *)
Inductive frame :=
| FArray (elems : list value)
| FObject (members : list (string * value))
| FValue (members : list (string * value)) (key : string).

(** What may come next. *)
Inductive expect :=
| EValue
| EValueOrEnd
| EKeyOrEnd
| EKey
| EColon (key : string)
| ECommaOrEnd
| EEnd (v : value).

(** A value is complete: it is the whole text, or it goes into the
    innermost open array or object. *)
Definition complete (v : value) (stack : list frame) : option (list frame * expect) :=
  match stack with
  | [] => Some ([], EEnd v)
  | FArray elems :: stack' => Some (FArray (v :: elems) :: stack', ECommaOrEnd)
  | FValue members key :: stack' => Some (FObject ((key, v) :: members) :: stack', ECommaOrEnd)
  | FObject _ :: _ => None
  end.

Definition begin_value (t : token) (stack : list frame) : option (list frame * expect) :=
  match t with
  | TLBrace => Some (FObject [] :: stack, EKeyOrEnd)
  | TLBracket => Some (FArray [] :: stack, EValueOrEnd)
  | TString s => complete (JString s) stack
  | TNumber literal => complete (JNumber literal) stack
  | TTrue => complete (JBool true) stack
  | TFalse => complete (JBool false) stack
  | TNull => complete JNull stack
  | TRBrace | TRBracket | TColon | TComma => None
  end.

Definition end_array (stack : list frame) : option (list frame * expect) :=
  match stack with
  | FArray elems :: stack' => complete (JArray (rev elems)) stack'
  | _ => None
  end.

Definition end_object (stack : list frame) : option (list frame * expect) :=
  match stack with
  | FObject members :: stack' => complete (JObject (rev members)) stack'
  | _ => None
  end.

(** One token. *)
Definition step (stack : list frame) (e : expect) (t : token)
    : option (list frame * expect) :=
  match e, t with
  | EValue, _ => begin_value t stack
  | EValueOrEnd, TRBracket => end_array stack
  | EValueOrEnd, _ => begin_value t stack
  | EKeyOrEnd, TRBrace => end_object stack
  | (EKeyOrEnd | EKey), TString key => Some (stack, EColon key)
  | EColon key, TColon =>
    match stack with
    | FObject members :: stack' => Some (FValue members key :: stack', EValue)
    | _ => None
    end
  | ECommaOrEnd, TComma =>
    match stack with
    | FArray _ :: _ => Some (stack, EValue)
    | FObject _ :: _ => Some (stack, EKey)
    | _ => None
    end
  | ECommaOrEnd, TRBracket => end_array stack
  | ECommaOrEnd, TRBrace => end_object stack
  | _, _ => None
  end.

Fixpoint parse_tokens (stack : list frame) (e : expect) (ts : list token) : option value :=
  match ts with
  | [] => match e with EEnd v => Some v | _ => None end
  | t :: ts' => '(stack', e') ← step stack e t; parse_tokens stack' e' ts'
  end.

(** The kinds of frames and values that are objects. *)
Definition object_frame (f : frame) : bool :=
  match f with FArray _ => false | FObject _ | FValue _ _ => true end.

Definition is_object (v : value) : bool :=
  match v with JObject _ => true | _ => false end.

(** The parser is reading a text whose outermost value is an object: the
    outermost open frame is an object, or the finished value is one. *)
Definition reading_object (stack : list frame) (e : expect) : Prop :=
  match e with
  | EEnd v => is_object v
  | _ => ∃ f, last stack = Some f ∧ object_frame f
  end.

(** The JSON value a text denotes; [None] is a syntax error. *)
Definition parse (data : string) : option value :=
  ts ← scan Between data; parse_tokens [] EValue ts.

(** *** Decoding

    A JSON value is stored into a Go value that already exists: [null]
    resets a pointer, map or slice and leaves a string as it is; a value of
    the wrong kind leaves its target as it is and makes the call return an
    [UnmarshalTypeError] once the rest has been decoded; an object key that
    names no field is passed over.  A slice is taken to have no capacity
    beyond its length. *)

(** The error the decoder keeps is the first one. *)
Definition first_error (e1 e2 : error) : error :=
  match e1 with Some _ => e1 | None => e2 end.

Definition lower (c : ascii) : ascii :=
  if utf8.between 65 90 (utf8.byte c) then ascii_of_N (utf8.byte c + 32) else c.

(** The decoder's match of an object key against a field's (ASCII) tag name:
    letters match in either case, and U+017F and U+212A match [s] and [k]. *)
Fixpoint equalFold (name key : string) : bool :=
  match name with
  | EmptyString => String.eqb key ""
  | String n name' =>
    match key with
    | EmptyString => false
    | String c key' =>
      if (utf8.byte c <? 0x80)%N then Ascii.eqb (lower n) (lower c) && equalFold name' key'
      else
        let '(r, size) := utf8.DecodeRune key in
        (((r =? 0x17F)%N && Ascii.eqb (lower n) "s")
         || ((r =? 0x212A)%N && Ascii.eqb (lower n) "k"))
        && equalFold name' (drop_bytes size key)
    end
  end.

(** The fields of [ProjectIAMMember], by their [json] tags. *)
Inductive field := FRole | FMember | FForEach | FProject | FDependsOn.

Definition field_of (key : string) : option field :=
  if equalFold "role" key then Some FRole
  else if equalFold "member" key then Some FMember
  else if equalFold "for_each" key then Some FForEach
  else if equalFold "project" key then Some FProject
  else if equalFold "depends_on" key then Some FDependsOn
  else None.

(** Into a [string]. *)
Definition store_string (cur : string) (v : value) : string * error :=
  match v with
  | JString s => (s, None)
  | JNull => (cur, None)
  | _ => (cur, Some UnmarshalTypeError)
  end.

(** The elements of an array into a [[]string] that holds [cur]. *)
Fixpoint store_string_elems (cur : list string) (vs : list value) : list string * error :=
  match vs with
  | [] => ([], None)
  | v :: vs' =>
    let '(s, e) := store_string (hd "" cur) v in
    let '(ss, e') := store_string_elems (tl cur) vs' in
    (s :: ss, first_error e e')
  end.

(** Into a [[]string]. *)
Definition store_strings (cur : list string) (v : value) : list string * error :=
  match v with
  | JArray vs => store_string_elems cur vs
  | JNull => ([], None)
  | _ => (cur, Some UnmarshalTypeError)
  end.

(** Into a [*ProjectIAMMember] ([store_member]; a nil pointer is first made
    to point to a zero struct unless the value is [null]) and into a
    [map[string]*ProjectIAMMember] ([store_map]; every entry is decoded into
    a fresh nil pointer). *)
Fixpoint store_member (cur : option ProjectIAMMember.t) (v : value) {struct v}
    : option ProjectIAMMember.t * error :=
  match v with
  | JNull => (None, None)
  | JObject members =>
    let fix fields (p : ProjectIAMMember.t) (kvs : list (string * value)) {struct kvs}
        : ProjectIAMMember.t * error :=
      match kvs with
      | [] => (p, None)
      | (key, x) :: kvs' =>
        let '(ProjectIAMMember.mk role member for_each project depends_on) := p in
        let '(p', e) :=
          match field_of key with
          | Some FRole =>
            let '(s, e) := store_string role x in
            (ProjectIAMMember.mk s member for_each project depends_on, e)
          | Some FMember =>
            let '(s, e) := store_string member x in
            (ProjectIAMMember.mk role s for_each project depends_on, e)
          | Some FForEach =>
            let '(m, e) := store_map for_each x in
            (ProjectIAMMember.mk role member m project depends_on, e)
          | Some FProject =>
            let '(s, e) := store_string project x in
            (ProjectIAMMember.mk role member for_each s depends_on, e)
          | Some FDependsOn =>
            let '(ss, e) := store_strings depends_on x in
            (ProjectIAMMember.mk role member for_each project ss, e)
          | None => (p, None)
          end in
        let '(p'', e') := fields p' kvs' in
        (p'', first_error e e')
      end in
    let '(p, e) := fields (default ProjectIAMMember.zero cur) members in
    (Some p, e)
  | _ => (Some (default ProjectIAMMember.zero cur), Some UnmarshalTypeError)
  end
with store_map (cur : gmap string (option ProjectIAMMember.t)) (v : value) {struct v}
    : gmap string (option ProjectIAMMember.t) * error :=
  match v with
  | JNull => (∅, None)
  | JObject members =>
    (fix entries (m : gmap string (option ProjectIAMMember.t))
         (kvs : list (string * value)) {struct kvs}
       : gmap string (option ProjectIAMMember.t) * error :=
       match kvs with
       | [] => (m, None)
       | (key, x) :: kvs' =>
         let '(p, e) := store_member None x in
         let '(m', e') := entries (<[key := p]> m) kvs' in
         (m', first_error e e')
       end) cur members
  | _ => (cur, Some UnmarshalTypeError)
  end.

(** The elements of an array into a [[]*ProjectIAMMember] that holds [cur]. *)
Fixpoint store_member_elems (cur : list (option ProjectIAMMember.t)) (vs : list value)
    : list (option ProjectIAMMember.t) * error :=
  match vs with
  | [] => ([], None)
  | v :: vs' =>
    let '(p, e) := store_member (default None (head cur)) v in
    let '(ps, e') := store_member_elems (tl cur) vs' in
    (p :: ps, first_error e e')
  end.

(** Into a [[]*ProjectIAMMember]. *)
Definition store_Members (cur : list (option ProjectIAMMember.t)) (v : value)
    : list (option ProjectIAMMember.t) * error :=
  match v with
  | JArray vs => store_member_elems cur vs
  | JNull => ([], None)
  | _ => (cur, Some UnmarshalTypeError)
  end.

(** [json.Unmarshal(data, &members)] for [members] of type
    [[]*ProjectIAMMember] holding [cur]: the slice after the call and the
    error returned.  A text that is not valid JSON changes nothing. *)
Definition Unmarshal (data : string) (cur : list (option ProjectIAMMember.t))
    : list (option ProjectIAMMember.t) * error :=
  match parse data with
  | None => (cur, Some SyntaxError)
  | Some v => store_Members cur v
  end.

End json.

(** ** [type ProjectIAMMembers struct] and its methods *)
Module ProjectIAMMembers.

Record t := mk {
  Members : list (option ProjectIAMMember.t);
  DependsOn : list string;
  project : string
}.

(** [func (ms *ProjectIAMMembers) Init(projectID string) error] *)
Definition Init (ms : t) (projectID : string) : error * t :=
  (None, mk (Members ms) (DependsOn ms) projectID).

(** [func (ms *ProjectIAMMembers) ID() string] *)
Definition ID (ms : t) : string * t := ("project", ms).

(** [func (ms *ProjectIAMMembers) ResourceType() string] *)
Definition ResourceType (ms : t) : string * t := ("google_project_iam_member", ms).

(** The key of a member in the [for_each] map. *)
Definition key (m : ProjectIAMMember.t) : string :=
  Sprintf_s_s (ProjectIAMMember.Role m) (ProjectIAMMember.Member m).

(** A string holds a space. *)
Fixpoint has_space (s : string) : bool :=
  match s with
  | EmptyString => false
  | String c rest => Ascii.eqb c " " || has_space rest
  end.

(** The loop [for _, m := range ms.Members { forEach[key] = m }], started
    with the map [forEach]; reading [m.Role] through a nil [m] panics. *)
Fixpoint range_Members (forEach : gmap string (option ProjectIAMMember.t))
    (members : list (option ProjectIAMMember.t))
    : outcome (gmap string (option ProjectIAMMember.t)) :=
  match members with
  | [] => Returned forEach
  | None :: _ => Panicked
  | Some m :: members' => range_Members (<[key m := Some m]> forEach) members'
  end.

(** The struct [MarshalJSON] hands to [json.Marshal], given the map built
    by the loop. *)
Definition merged (ms : t) (forEach : gmap string (option ProjectIAMMember.t))
    : ProjectIAMMember.t :=
  {| ProjectIAMMember.ForEach := forEach;
     ProjectIAMMember.Project := project ms;
     ProjectIAMMember.Role := "${each.value.role}";
     ProjectIAMMember.Member := "${each.value.member}";
     ProjectIAMMember.DependsOn := DependsOn ms |}.

(** [func (ms *ProjectIAMMembers) MarshalJSON() ([]byte, error)] *)
Definition MarshalJSON (ms : t) : outcome (string * error) * t :=
  match range_Members ∅ (Members ms) with
  | Panicked => (Panicked, ms)
  | Returned forEach => (Returned (json.Marshal (merged ms forEach)), ms)
  end.

(** [func (ms *ProjectIAMMembers) UnmarshalJSON(b []byte) error] *)
Definition UnmarshalJSON (ms : t) (b : string) : error * t :=
  let '(members, e) := json.Unmarshal b (Members ms) in
  (e, mk members (DependsOn ms) (project ms)).

(** A call of one of the five methods. *)
Inductive call :=
| CallInit (projectID : string)
| CallID
| CallResourceType
| CallMarshalJSON
| CallUnmarshalJSON (b : string).

(** The receiver after one call (after a panic, as the panic left it). *)
Definition after (ms : t) (c : call) : t :=
  match c with
  | CallInit projectID => snd (Init ms projectID)
  | CallID => snd (ID ms)
  | CallResourceType => snd (ResourceType ms)
  | CallMarshalJSON => snd (MarshalJSON ms)
  | CallUnmarshalJSON b => snd (UnmarshalJSON ms b)
  end.

(** The receiver after a sequence of calls, first call first. *)
Definition run (ms : t) (cs : list call) : t := foldl after ms cs.

(** The argument of the last [Init] among the calls, if there is one. *)
Fixpoint last_Init (cs : list call) : option string :=
  match cs with
  | [] => None
  | c :: cs' =>
    match last_Init cs' with
    | Some p => Some p
    | None => match c with CallInit p => Some p | _ => None end
    end
  end.

End ProjectIAMMembers.

(** ** Reading a history of calls and a slice of members *)

(** The first non-empty argument of an [Init] among the calls, or the empty
    string when there is none. *)
Fixpoint first_project (cs : list ServiceAccount.call) : string :=
  match cs with
  | [] => ""
  | ServiceAccount.CallInit projectID :: cs' =>
    if String.eqb projectID "" then first_project cs' else projectID
  | _ :: cs' => first_project cs'
  end.




(** All bytes of a string are below 128. *)
Fixpoint is_ascii (s : string) : bool :=
  match s with
  | EmptyString => true
  | String c rest => (utf8.byte c <? 0x80)%N && is_ascii rest
  end.

(** A JSON value made of [null], ASCII strings, arrays and objects with
    ASCII keys. *)
Fixpoint ascii_value (v : json.value) : bool :=
  match v with
  | json.JNull => true
  | json.JBool _ | json.JNumber _ => false
  | json.JString s => is_ascii s
  | json.JArray elems => forallb ascii_value elems
  | json.JObject members =>
    forallb (λ kv, is_ascii (fst kv) && ascii_value (snd kv)) members
  end.

(** The tokens after the first element of an array, and after the first
    member of an object, given the tokens of a value. *)
Fixpoint rest_elems (tok : json.value → list json.token) (vs : list json.value)
    : list json.token :=
  match vs with
  | [] => [json.TRBracket]
  | v :: vs' => json.TComma :: tok v ++ rest_elems tok vs'
  end.

Fixpoint rest_members (tok : json.value → list json.token)
    (kvs : list (string * json.value)) : list json.token :=
  match kvs with
  | [] => [json.TRBrace]
  | kv :: kvs' =>
    json.TComma :: json.TString (fst kv) :: json.TColon :: tok (snd kv)
      ++ rest_members tok kvs'
  end.

(** The tokens of the compact text of a JSON value. *)
Fixpoint tokens (v : json.value) : list json.token :=
  match v with
  | json.JNull => [json.TNull]
  | json.JBool true => [json.TTrue]
  | json.JBool false => [json.TFalse]
  | json.JNumber literal => [json.TNumber literal]
  | json.JString s => [json.TString s]
  | json.JArray [] => [json.TLBracket; json.TRBracket]
  | json.JArray (v0 :: vs) => json.TLBracket :: tokens v0 ++ rest_elems tokens vs
  | json.JObject [] => [json.TLBrace; json.TRBrace]
  | json.JObject (kv :: kvs) =>
    json.TLBrace :: json.TString (fst kv) :: json.TColon :: tokens (snd kv)
      ++ rest_members tokens kvs
  end.

(** The text after a value starts with a byte that ends a number or a
    literal name, or is empty. *)
Definition delimited (rest : string) : Prop :=
  match rest with
  | EmptyString => True
  | String c _ => json.is_word_char c = false
  end.

(** A text yields given tokens whatever delimited text follows it. *)
Definition scans (text : string) (ts : list json.token) : Prop :=
  ∀ rest, delimited rest →
    json.scan json.Between (text ++ rest)
    = ts' ← json.scan json.Between rest; Some (ts ++ ts')%list.

(** The fields of an object stored into a struct, one after the other: the
    loop of [json.store_member] over the members of an object. *)
Fixpoint store_fields (p : ProjectIAMMember.t) (kvs : list (string * json.value))
    : ProjectIAMMember.t * error :=
  match kvs with
  | [] => (p, None)
  | (key, x) :: kvs' =>
    let '(ProjectIAMMember.mk role member for_each project depends_on) := p in
    let '(p', e) :=
      match json.field_of key with
      | Some json.FRole =>
        let '(s, e) := json.store_string role x in
        (ProjectIAMMember.mk s member for_each project depends_on, e)
      | Some json.FMember =>
        let '(s, e) := json.store_string member x in
        (ProjectIAMMember.mk role s for_each project depends_on, e)
      | Some json.FForEach =>
        let '(m, e) := json.store_map for_each x in
        (ProjectIAMMember.mk role member m project depends_on, e)
      | Some json.FProject =>
        let '(s, e) := json.store_string project x in
        (ProjectIAMMember.mk role member for_each s depends_on, e)
      | Some json.FDependsOn =>
        let '(ss, e) := json.store_strings depends_on x in
        (ProjectIAMMember.mk role member for_each project ss, e)
      | None => (p, None)
      end in
    let '(p'', e') := store_fields p' kvs' in
    (p'', json.first_error e e')
  end.


(** * Properties *)

(** ** The model at work *)

Example quote_escapes :
  json.quote ("a<b" ++ String "010" "&" ++ String json.dquote "")
  = json.with_dquotes "'a\u003cb\n\u0026\''" .
Proof. reflexivity. Qed.

Example quote_invalid_utf8 :
  json.quote (utf8.of_bytes [0xC3; 0xA9; 0xFF; 0xE2; 0x80; 0xA8]%N)
  = json.with_dquotes "'" ++ utf8.of_bytes [0xC3; 0xA9]%N ++ "\ufffd\u2028"
    ++ json.with_dquotes "'".
Proof. reflexivity. Qed.

Example unquote_surrogate_pair :
  json.unquote "\ud83d\ude00\ud83dx"
  = Some (utf8.of_bytes [0xF0; 0x9F; 0x98; 0x80; 0xEF; 0xBF; 0xBD; 120]%N).
Proof. reflexivity. Qed.

Example parse_nested :
  json.parse (json.with_dquotes " [ {'a' : [1, -0.5e+3, true, null]}, 'x' ] ")
  = Some (json.JArray
            [json.JObject
               [("a", json.JArray [json.JNumber "1"; json.JNumber "-0.5e+3";
                                   json.JBool true; json.JNull])];
             json.JString "x"]).
Proof. reflexivity. Qed.

Example parse_rejects :
  json.parse "" = None ∧ json.parse "[1,]" = None ∧ json.parse "01" = None
  ∧ json.parse "[1 2]" = None ∧ json.parse "nul" = None ∧ json.parse "[]]" = None
  ∧ json.parse (json.with_dquotes "{'a' 1}") = None
  ∧ json.parse (json.with_dquotes "'\x'") = None.
Proof. by vm_compute. Qed.

Example field_of_folds :
  json.field_of "ROLE" = Some json.FRole
  ∧ json.field_of "For_Each" = Some json.FForEach
  ∧ json.field_of ("depend" ++ utf8.EncodeRune 0x17F ++ "_on") = Some json.FDependsOn
  ∧ json.field_of "for-each" = None.
Proof. by vm_compute. Qed.

Example UnmarshalJSON_list :
  ProjectIAMMembers.UnmarshalJSON (ProjectIAMMembers.mk [] ["dep"] "p")
    (json.with_dquotes "[{'role':'roles/viewer','member':'user:a@x.com','x':[1]}, null]")
  = (None,
     ProjectIAMMembers.mk
       [Some (ProjectIAMMember.mk "roles/viewer" "user:a@x.com" ∅ "" []); None]
       ["dep"] "p").
Proof. by vm_compute. Qed.

Example UnmarshalJSON_object :
  ProjectIAMMembers.UnmarshalJSON (ProjectIAMMembers.mk [] [] "")
    (json.with_dquotes "{'role':'roles/viewer','member':'user:a@x.com'}")
  = (Some UnmarshalTypeError, ProjectIAMMembers.mk [] [] "").
Proof. by vm_compute. Qed.

Example UnmarshalJSON_wrong_kind :
  ProjectIAMMembers.UnmarshalJSON (ProjectIAMMembers.mk [] [] "")
    (json.with_dquotes "[{'role':5,'member':'m'}]")
  = (Some UnmarshalTypeError,
     ProjectIAMMembers.mk [Some (ProjectIAMMember.mk "" "m" ∅ "" [])] [] "").
Proof. by vm_compute. Qed.

Example MarshalJSON_nil_member :
  ProjectIAMMembers.MarshalJSON (ProjectIAMMembers.mk [None] [] "p")
  = (Panicked, ProjectIAMMembers.mk [None] [] "p").
Proof. reflexivity. Qed.

Example MarshalJSON_last_wins :
  let a := ProjectIAMMember.mk "roles/viewer" "user:a@x.com" ∅ "" ["first"] in
  let b := ProjectIAMMember.mk "roles/viewer" "user:a@x.com" ∅ "" ["second"] in
  fst (ProjectIAMMembers.MarshalJSON (ProjectIAMMembers.mk [Some a; Some b] [] ""))
  = Returned
      (json.with_dquotes
         ("{'role':'${each.value.role}','member':'${each.value.member}','for_each':{"
          ++ "'roles/viewer user:a@x.com':"
          ++ "{'role':'roles/viewer','member':'user:a@x.com','depends_on':['second']}}}"),
       None).
Proof. by vm_compute. Qed.

Example MarshalJSON_no_members :
  fst (ProjectIAMMembers.MarshalJSON (ProjectIAMMembers.mk [] [] ""))
  = Returned (json.with_dquotes "{'role':'${each.value.role}','member':'${each.value.member}'}",
              None).
Proof. by vm_compute. Qed.

(** ** The accessors and [Init] *)

Lemma ServiceAccount_Init_unbound (a : ServiceAccount.t) (projectID : string) :
  ServiceAccount.Project a = "" →
  ServiceAccount.Init a projectID
  = (None, ServiceAccount.mk (ServiceAccount.AccountID a) projectID
             (ServiceAccount.DisplayName a)).
Proof. intros H. unfold ServiceAccount.Init. by rewrite H. Qed.

Lemma ServiceAccount_Init_bound (a : ServiceAccount.t) (projectID : string) :
  ServiceAccount.Project a ≠ "" →
  ServiceAccount.Init a projectID
  = (Some (Errorf_project_must_not_be_set (ServiceAccount.Project a)), a).
Proof.
  intros H. unfold ServiceAccount.Init.
  destruct (String.eqb_spec (ServiceAccount.Project a) ""); [contradiction | done].
Qed.

(** C2, as amended: on a [ServiceAccount] whose [Project] is empty,
    [Init("p1")] succeeds and binds ["p1"]; [Init("p2")] on the same instance
    then returns the error that carries ["p1"] and leaves the instance, and
    so its [Project] ["p1"], as it was. *)
Theorem ServiceAccount_Init_twice (a : ServiceAccount.t) :
  ServiceAccount.Project a = "" →
  let a1 := snd (ServiceAccount.Init a "p1") in
  fst (ServiceAccount.Init a "p1") = None
  ∧ ServiceAccount.Project a1 = "p1"
  ∧ ServiceAccount.Init a1 "p2" = (Some (Errorf "project must not be set: p1"), a1)
  ∧ ServiceAccount.Project (snd (ServiceAccount.Init a1 "p2")) = "p1".
Proof.
  intros H. rewrite (ServiceAccount_Init_unbound _ _ H). cbn [fst snd].
  rewrite ServiceAccount_Init_bound by done. done.
Qed.

Lemma ServiceAccount_Init_twice_witness :
  let a := ServiceAccount.mk "deployer" "" "Deployer" in
  let a1 := snd (ServiceAccount.Init a "p1") in
  fst (ServiceAccount.Init a "p1") = None
  ∧ ServiceAccount.Project a1 = "p1"
  ∧ ServiceAccount.Init a1 "p2" = (Some (Errorf "project must not be set: p1"), a1)
  ∧ ServiceAccount.Project (snd (ServiceAccount.Init a1 "p2")) = "p1".
Proof.
  exact (ServiceAccount_Init_twice (ServiceAccount.mk "deployer" "" "Deployer") eq_refl).
Defined.

(** C2 as stated fails on an instance that is already bound: with [Project]
    ["p0"], both calls fail, the second error carries ["p0"], and [Project]
    is ["p0"] afterwards, which is not ["p1"]. *)
Lemma ServiceAccount_Init_twice_bound :
  let a := ServiceAccount.mk "deployer" "p0" "Deployer" in
  let a1 := snd (ServiceAccount.Init a "p1") in
  ServiceAccount.Init a1 "p2" = (Some (Errorf "project must not be set: p0"), a)
  ∧ ServiceAccount.Project (snd (ServiceAccount.Init a1 "p2")) = "p0"
  ∧ String.eqb (ServiceAccount.Project (snd (ServiceAccount.Init a1 "p2"))) "p1" = false.
Proof. by vm_compute. Qed.

(** C7: whatever a [ProjectIAMMembers] holds, [ID] returns ["project"], and
    [Init] returns nil and records its argument as the project, leaving the
    members and dependencies alone. *)
Theorem ProjectIAMMembers_ID_Init (ms : ProjectIAMMembers.t) (projectID : string) :
  fst (ProjectIAMMembers.ID ms) = "project"
  ∧ fst (ProjectIAMMembers.Init ms projectID) = None
  ∧ ProjectIAMMembers.project (snd (ProjectIAMMembers.Init ms projectID)) = projectID
  ∧ ProjectIAMMembers.Members (snd (ProjectIAMMembers.Init ms projectID))
    = ProjectIAMMembers.Members ms
  ∧ ProjectIAMMembers.DependsOn (snd (ProjectIAMMembers.Init ms projectID))
    = ProjectIAMMembers.DependsOn ms.
Proof. by destruct ms. Qed.

(** C8: [ResourceType] returns the same literal for every instance of a
    kind: ["google_service_account"] for a [ServiceAccount] and
    ["google_project_iam_member"] for a [ProjectIAMMembers]; the call leaves
    the instance as it was. *)
Theorem ResourceType_fixed (a : ServiceAccount.t) (ms : ProjectIAMMembers.t) :
  ServiceAccount.ResourceType a = ("google_service_account", a)
  ∧ ProjectIAMMembers.ResourceType ms = ("google_project_iam_member", ms).
Proof. done. Qed.

(** C9: [ServiceAccount.Init] fails exactly when [Project] is non-empty at
    the call, whatever its argument; so [Init("")] on an unbound instance
    succeeds and leaves it unbound, and an [Init] after it succeeds too and
    binds its argument. *)
Theorem ServiceAccount_Init_guard (a : ServiceAccount.t) (projectID projectID' : string) :
  (fst (ServiceAccount.Init a projectID) ≠ None ↔ ServiceAccount.Project a ≠ "")
  ∧ (fst (ServiceAccount.Init a projectID) = None
     ↔ fst (ServiceAccount.Init a projectID') = None)
  ∧ (ServiceAccount.Project a = "" →
     let a0 := snd (ServiceAccount.Init a "") in
     fst (ServiceAccount.Init a "") = None
     ∧ a0 = a
     ∧ fst (ServiceAccount.Init a0 projectID) = None
     ∧ ServiceAccount.Project (snd (ServiceAccount.Init a0 projectID)) = projectID).
Proof.
  destruct a as [acc p dn]. unfold ServiceAccount.Init. cbn [ServiceAccount.Project].
  destruct (String.eqb_spec p ""); subst; cbn; split_and!; done.
Qed.

Lemma ServiceAccount_Init_guard_witness :
  let a := ServiceAccount.mk "deployer" "" "Deployer" in
  let a0 := snd (ServiceAccount.Init a "") in
  fst (ServiceAccount.Init a "") = None
  ∧ a0 = a
  ∧ fst (ServiceAccount.Init a0 "proj1") = None
  ∧ ServiceAccount.Project (snd (ServiceAccount.Init a0 "proj1")) = "proj1".
Proof.
  exact (proj2 (proj2 (ServiceAccount_Init_guard
                         (ServiceAccount.mk "deployer" "" "Deployer") "proj1" "proj1"))
           eq_refl).
Defined.

(** C10: [MarshalJSON] leaves its receiver as it was (members, dependencies
    and project), also when it panics, and a second call gives what the
    first gave. *)
Theorem MarshalJSON_pure (ms : ProjectIAMMembers.t) :
  snd (ProjectIAMMembers.MarshalJSON ms) = ms
  ∧ ProjectIAMMembers.Members (snd (ProjectIAMMembers.MarshalJSON ms))
    = ProjectIAMMembers.Members ms
  ∧ ProjectIAMMembers.DependsOn (snd (ProjectIAMMembers.MarshalJSON ms))
    = ProjectIAMMembers.DependsOn ms
  ∧ ProjectIAMMembers.project (snd (ProjectIAMMembers.MarshalJSON ms))
    = ProjectIAMMembers.project ms
  ∧ ProjectIAMMembers.MarshalJSON (snd (ProjectIAMMembers.MarshalJSON ms))
    = ProjectIAMMembers.MarshalJSON ms.
Proof.
  assert (snd (ProjectIAMMembers.MarshalJSON ms) = ms) as E.
  { unfold ProjectIAMMembers.MarshalJSON.
    by destruct (ProjectIAMMembers.range_Members _ _). }
  by rewrite !E.
Qed.

(** ** Lifecycle *)

Lemma ServiceAccount_after_bound (a : ServiceAccount.t) (c : ServiceAccount.call) :
  ServiceAccount.initialized a → ServiceAccount.after a c = a.
Proof.
  intros H. destruct c as [projectID| |]; cbn; [|done..].
  by rewrite ServiceAccount_Init_bound.
Qed.

Lemma ServiceAccount_run_bound (a : ServiceAccount.t) (cs : list ServiceAccount.call) :
  ServiceAccount.initialized a → ServiceAccount.run a cs = a.
Proof.
  intros H. unfold ServiceAccount.run.
  induction cs as [|c cs IH]; cbn; [done|].
  by rewrite ServiceAccount_after_bound.
Qed.

Lemma ProjectIAMMembers_after_project (ms : ProjectIAMMembers.t) (c : ProjectIAMMembers.call) :
  ProjectIAMMembers.project (ProjectIAMMembers.after ms c)
  = match c with
    | ProjectIAMMembers.CallInit projectID => projectID
    | _ => ProjectIAMMembers.project ms
    end.
Proof.
  destruct c as [projectID| | | |b]; cbn; try done.
  - unfold ProjectIAMMembers.MarshalJSON.
    by destruct (ProjectIAMMembers.range_Members _ _).
  - unfold ProjectIAMMembers.UnmarshalJSON.
    by destruct (json.Unmarshal _ _).
Qed.

Lemma ProjectIAMMembers_run_project (cs : list ProjectIAMMembers.call) :
  ∀ ms : ProjectIAMMembers.t,
    ProjectIAMMembers.project (ProjectIAMMembers.run ms cs)
    = default (ProjectIAMMembers.project ms) (ProjectIAMMembers.last_Init cs).
Proof.
  unfold ProjectIAMMembers.run.
  induction cs as [|c cs IH]; intros ms; cbn [foldl ProjectIAMMembers.last_Init]; [done|].
  rewrite IH, ProjectIAMMembers_after_project.
  destruct (ProjectIAMMembers.last_Init cs); [done|]. by destruct c.
Qed.

(** C6, as amended: a [ServiceAccount] has two lifecycle states, unbound
    ([Project] empty) and bound; no call of [ID] or [ResourceType] binds it,
    [Init] binds it to its argument, and once it is bound no sequence of
    calls of its methods changes it.  A [ProjectIAMMembers] has no one-way
    transition: every [Init] overwrites the project, so after any sequence of
    calls of its methods the project is the argument of the last [Init] among
    them, or what it was when there is none. *)
Theorem lifecycle :
  (∀ (a : ServiceAccount.t) (cs : list ServiceAccount.call),
     ServiceAccount.initialized a → ServiceAccount.run a cs = a)
  ∧ (∀ (a : ServiceAccount.t) (c : ServiceAccount.call),
       ¬ ServiceAccount.initialized a →
       ServiceAccount.Project (ServiceAccount.after a c)
       = match c with ServiceAccount.CallInit projectID => projectID | _ => "" end)
  ∧ (∀ (ms : ProjectIAMMembers.t) (cs : list ProjectIAMMembers.call),
       ProjectIAMMembers.project (ProjectIAMMembers.run ms cs)
       = default (ProjectIAMMembers.project ms) (ProjectIAMMembers.last_Init cs)).
Proof.
  split_and!.
  - apply ServiceAccount_run_bound.
  - intros a c H. unfold ServiceAccount.initialized in H.
    apply dec_stable in H.
    destruct c; cbn; [|done..]. by rewrite ServiceAccount_Init_unbound.
  - intros ms cs. apply ProjectIAMMembers_run_project.
Qed.

Lemma lifecycle_witness :
  ServiceAccount.run (ServiceAccount.mk "deployer" "p1" "Deployer")
    [ServiceAccount.CallInit "p2"; ServiceAccount.CallID; ServiceAccount.CallInit "";
     ServiceAccount.CallResourceType]
  = ServiceAccount.mk "deployer" "p1" "Deployer".
Proof.
  refine (proj1 lifecycle (ServiceAccount.mk "deployer" "p1" "Deployer") _ _).
  unfold ServiceAccount.initialized. cbn. discriminate.
Defined.

(** C6 as stated fails for [ProjectIAMMembers]: after [Init("p1")], a
    second [Init("p2")] succeeds and rebinds the project to ["p2"], and an
    [Init("")] puts the empty project back. *)
Lemma ProjectIAMMembers_Init_rebinds :
  let ms := snd (ProjectIAMMembers.Init (ProjectIAMMembers.mk [] [] "") "p1") in
  ProjectIAMMembers.project ms = "p1"
  ∧ ProjectIAMMembers.Init ms "p2" = (None, ProjectIAMMembers.mk [] [] "p2")
  ∧ ProjectIAMMembers.project
      (ProjectIAMMembers.run ms [ProjectIAMMembers.CallInit "p2"]) = "p2"
  ∧ ProjectIAMMembers.project
      (ProjectIAMMembers.run ms [ProjectIAMMembers.CallInit ""]) = "".
Proof. done. Qed.

(** ** The [for_each] map *)

Section ForEach.

Implicit Types (m : ProjectIAMMember.t) (l : list ProjectIAMMember.t).
Implicit Types (acc forEach : gmap string (option ProjectIAMMember.t)).

Import ProjectIAMMembers.

(** What the loop leaves in the map when no pointer is nil: it returns; the
    keys are those it started with and the members' keys; a key of no member
    keeps its entry; a member that no later member shares its key with is
    the entry under its key. *)
Lemma range_Members_spec l :
  ∀ acc, ∃ forEach,
    range_Members acc (Some <$> l) = Returned forEach
    ∧ (∀ k, k ∉ key <$> l → forEach !! k = acc !! k)
    ∧ (∀ l1 m l2, l = (l1 ++ m :: l2)%list → (∀ m', m' ∈ l2 → key m' ≠ key m) →
         forEach !! key m = Some (Some m))
    ∧ (size forEach ≤ size acc + length l)%nat.
Proof.
  induction l as [|m0 l IH]; intros acc.
  { exists acc. split_and!; [done|done| |cbn; lia].
    intros [|??] ?? E; discriminate E. }
  destruct (IH (<[key m0 := Some m0]> acc)) as (forEach & Hret & Hout & Hlast & Hsize).
  exists forEach. split_and!.
  - done.
  - intros k Hk. rewrite fmap_cons, not_elem_of_cons in Hk. destruct Hk as [Hne Hk].
    rewrite (Hout k Hk). by rewrite lookup_insert_ne.
  - intros [|m1 l1] m l2 E Hfresh; simplify_eq/=.
    + rewrite Hout.
      * apply lookup_insert_eq.
      * intros (m' & Hk & Hin)%list_elem_of_fmap. by apply (Hfresh m').
    + by apply (Hlast l1 m l2).
  - cbn [length]. etrans; [exact Hsize|].
    destruct (acc !! key m0) eqn:E.
    + rewrite map_size_insert_Some by done. lia.
    + rewrite map_size_insert_None by done. lia.
Qed.

(** With pairwise distinct keys that the map does not hold yet, every
    member adds an entry. *)
Lemma range_Members_size_distinct l :
  ∀ acc forEach,
    NoDup (key <$> l) → (∀ m, m ∈ l → acc !! key m = None) →
    range_Members acc (Some <$> l) = Returned forEach →
    size forEach = size acc + length l.
Proof.
  induction l as [|m0 l IH]; intros acc forEach Hnd Hfresh Hret.
  { cbn in *. simplify_eq. lia. }
  rewrite fmap_cons, NoDup_cons in Hnd. destruct Hnd as [Hm0 Hnd].
  cbn in Hret. rewrite (IH _ _ Hnd) with (2 := Hret).
  - rewrite map_size_insert_None; [cbn; lia|]. apply Hfresh. left.
  - intros m Hm. rewrite lookup_insert_ne.
    + apply Hfresh. by right.
    + intros E. apply Hm0. rewrite E. by apply list_elem_of_fmap_2.
Qed.

(** When two members share a key, or a member's key is in the map already,
    the map grows by less than the number of members. *)
Lemma range_Members_size_collision l :
  ∀ acc forEach,
    ¬ NoDup (key <$> l) ∨ (∃ m, m ∈ l ∧ is_Some (acc !! key m)) →
    range_Members acc (Some <$> l) = Returned forEach →
    (size forEach < size acc + length l)%nat.
Proof.
  induction l as [|m0 l IH]; intros acc forEach Hdup Hret.
  { destruct Hdup as [Hdup|(m & Hm & _)]; [|by apply elem_of_nil in Hm].
    destruct Hdup. constructor. }
  cbn in Hret. cbn [length].
  destruct (range_Members_spec l (<[key m0 := Some m0]> acc)) as (fe & Hret' & _ & _ & Hle).
  rewrite Hret in Hret'. simplify_eq.
  destruct (acc !! key m0) as [p|] eqn:E.
  { rewrite map_size_insert_Some in Hle by done. lia. }
  rewrite map_size_insert_None in Hle by done.
  enough (size fe < size (<[key m0 := Some m0]> acc) + length l)%nat as Hlt.
  { rewrite map_size_insert_None in Hlt by done. lia. }
  apply IH; [|done].
  destruct (decide (key m0 ∈ key <$> l)) as [Hin|Hnin].
  { right. apply list_elem_of_fmap in Hin as (m & Hk & Hm).
    exists m. split; [done|]. rewrite <- Hk, lookup_insert_eq. by eexists. }
  destruct Hdup as [Hdup|(m & Hm & Hsome)].
  - left. intros Hnd. apply Hdup. rewrite fmap_cons. by constructor.
  - right. apply elem_of_cons in Hm as [->|Hm].
    + rewrite E in Hsome. by destruct Hsome.
    + exists m. split; [done|].
      destruct (decide (key m0 = key m)) as [Ek|Hne].
      * rewrite Ek, lookup_insert_eq. by eexists.
      * by rewrite lookup_insert_ne.
Qed.


(** A non-empty list leaves a non-empty map. *)
Lemma range_Members_nonempty l acc forEach :
  l ≠ [] → range_Members acc (Some <$> l) = Returned forEach → size forEach ≠ 0.
Proof.
  intros Hne Hret.
  destruct (range_Members_spec l acc) as (fe & Hret' & _ & Hlast & _).
  rewrite Hret in Hret'. simplify_eq.
  destruct l as [|m0 l0 _] using rev_ind; [done|].
  intros Hz. apply map_size_empty_inv in Hz.
  specialize (Hlast l0 m0 [] eq_refl). rewrite Hz, lookup_empty in Hlast.
  assert (None = Some (Some m0)) as Habs; [|done].
  apply Hlast. intros m' Hin. by apply elem_of_nil in Hin.
Qed.

(** The object the encoder writes for a member. *)
Lemma value_of_eq m :
  json.value_of m
  = json.JObject
      ([("role", json.JString (ProjectIAMMember.Role m));
        ("member", json.JString (ProjectIAMMember.Member m))]
       ++ json.omitempty (Nat.eqb (size (ProjectIAMMember.ForEach m)) 0) "for_each"
            (json.JObject
               (json.sort_entries (map_to_list
                  ((λ p, match p with Some m' => json.value_of m' | None => json.JNull end)
                     <$> ProjectIAMMember.ForEach m))))
       ++ json.omitempty (String.eqb (ProjectIAMMember.Project m) "") "project"
            (json.JString (ProjectIAMMember.Project m))
       ++ json.omitempty (Nat.eqb (length (ProjectIAMMember.DependsOn m)) 0) "depends_on"
            (json.JArray (json.JString <$> ProjectIAMMember.DependsOn m))).
Proof. by destruct m. Qed.

Lemma insert_entry_perm {A} (kv : string * A) (es : list (string * A)) :
  json.insert_entry kv es ≡ₚ kv :: es.
Proof.
  induction es as [|kv' es IH]; cbn; [done|].
  destruct (String.leb _ _); [done|]. rewrite IH. apply Permutation_swap.
Qed.

Lemma sort_entries_perm {A} (es : list (string * A)) : json.sort_entries es ≡ₚ es.
Proof.
  induction es as [|kv es IH]; cbn; [done|].
  by rewrite insert_entry_perm, IH.
Qed.

(** The [for_each] member of the output holds one entry per entry of the
    map, each under its key. *)
Lemma value_of_for_each m :
  size (ProjectIAMMember.ForEach m) ≠ 0 →
  ∃ entries,
    json.get "for_each" (json.value_of m) = Some (json.JObject entries)
    ∧ length entries = size (ProjectIAMMember.ForEach m)
    ∧ (∀ k m', ProjectIAMMember.ForEach m !! k = Some (Some m') →
         (k, json.value_of m') ∈ entries).
Proof.
  intros Hsize. eexists. split_and!.
  - rewrite value_of_eq. apply Nat.eqb_neq in Hsize. by rewrite Hsize.
  - by rewrite sort_entries_perm, length_map_to_list, map_size_fmap.
  - intros k m' Hk. rewrite sort_entries_perm, elem_of_map_to_list, lookup_fmap, Hk. done.
Qed.

End ForEach.

Section Aggregation.

Implicit Types (m a b : ProjectIAMMember.t) (l : list ProjectIAMMember.t).
Implicit Types (ms : ProjectIAMMembers.t).

Import ProjectIAMMembers.

Lemma MarshalJSON_non_nil ms l forEach :
  Members ms = Some <$> l →
  range_Members ∅ (Some <$> l) = Returned forEach →
  MarshalJSON ms = (Returned (json.Marshal (merged ms forEach)), ms).
Proof. intros E Hret. unfold MarshalJSON. by rewrite E, Hret. Qed.

(** Keys made of a role without a space determine role and member. *)
Lemma key_inj m m' :
  has_space (ProjectIAMMember.Role m) = false →
  has_space (ProjectIAMMember.Role m') = false →
  key m = key m' →
  ProjectIAMMember.Role m = ProjectIAMMember.Role m'
  ∧ ProjectIAMMember.Member m = ProjectIAMMember.Member m'.
Proof.
  unfold key, Sprintf_s_s.
  generalize (ProjectIAMMember.Member m) (ProjectIAMMember.Member m').
  generalize (ProjectIAMMember.Role m'). generalize (ProjectIAMMember.Role m).
  intros r. induction r as [|c r IH]; intros [|c' r'] s s'; cbn; intros H H' E.
  - by simplify_eq.
  - by simplify_eq.
  - by simplify_eq.
  - apply orb_false_iff in H as [_ H]. apply orb_false_iff in H' as [_ H'].
    simplify_eq. by destruct (IH r' s s' H H') as [-> ->].
Qed.

(** Pairwise distinct (role, member) pairs with roles without a space have
    pairwise distinct keys. *)
Lemma keys_distinct l :
  NoDup ((λ m, (ProjectIAMMember.Role m, ProjectIAMMember.Member m)) <$> l) →
  Forall (λ m, has_space (ProjectIAMMember.Role m) = false) l →
  NoDup (key <$> l).
Proof.
  induction l as [|m l IH]; cbn; intros Hnd Hall; [constructor|].
  apply NoDup_cons in Hnd as [Hm Hnd]. apply Forall_cons in Hall as [Hs Hall].
  constructor; [|by apply IH].
  intros (m' & Hk & Hin)%list_elem_of_fmap. apply Hm.
  apply list_elem_of_fmap. exists m'. split; [|done].
  rewrite Forall_forall in Hall.
  by destruct (key_inj m m' Hs (Hall m' Hin) Hk) as [-> ->].
Qed.

(** C1, as amended: for a non-empty list of N members (no nil pointer)
    whose keys, [Role], a space, [Member], are pairwise distinct,
    [MarshalJSON] returns the encoding of a struct whose [ForEach] map has
    exactly N entries, every member being the entry under its key; the
    [for_each] member of the JSON object written has N entries, every
    member's encoding standing under the member's key. *)
Theorem MarshalJSON_distinct_keys ms l :
  l ≠ [] → Members ms = Some <$> l → NoDup (key <$> l) →
  ∃ forEach entries,
    MarshalJSON ms = (Returned (json.Marshal (merged ms forEach)), ms)
    ∧ size forEach = length l
    ∧ (∀ m, m ∈ l → forEach !! key m = Some (Some m))
    ∧ json.get "for_each" (json.value_of (merged ms forEach)) = Some (json.JObject entries)
    ∧ length entries = length l
    ∧ (∀ m, m ∈ l → (key m, json.value_of m) ∈ entries).
Proof.
  intros Hne E Hnd.
  destruct (range_Members_spec l ∅) as (forEach & Hret & _ & Hlast & _).
  assert (size forEach = length l) as Hsize.
  { rewrite (range_Members_size_distinct l ∅ forEach Hnd); [by rewrite map_size_empty| |done].
    intros. apply lookup_empty. }
  assert (∀ m, m ∈ l → forEach !! key m = Some (Some m)) as Hall.
  { intros m (l1 & l2 & ->)%list_elem_of_split. apply (Hlast l1 m l2); [done|].
    intros m' Hin Hk. rewrite fmap_app, fmap_cons in Hnd.
    apply NoDup_app in Hnd as (_ & _ & Hnd). apply NoDup_cons in Hnd as [Hnd _].
    apply Hnd. rewrite <- Hk. by apply list_elem_of_fmap_2. }
  destruct (value_of_for_each (merged ms forEach)) as (entries & Hget & Hlen & Hin).
  { cbn. rewrite Hsize. by destruct l. }
  exists forEach, entries. split_and!; try done.
  - by apply MarshalJSON_non_nil with l.
  - by rewrite Hlen.
  - intros m Hm. apply Hin. cbn. by apply Hall.
Qed.

Lemma MarshalJSON_distinct_keys_witness :
  let a := ProjectIAMMember.mk "roles/viewer" "user:a@x.com" ∅ "" [] in
  let b := ProjectIAMMember.mk "roles/editor" "user:b@x.com" ∅ "" [] in
  let ms := ProjectIAMMembers.mk [Some a; Some b] [] "proj1" in
  ∃ forEach entries,
    MarshalJSON ms = (Returned (json.Marshal (merged ms forEach)), ms)
    ∧ size forEach = 2
    ∧ (∀ m, m ∈ [a; b] → forEach !! key m = Some (Some m))
    ∧ json.get "for_each" (json.value_of (merged ms forEach)) = Some (json.JObject entries)
    ∧ length entries = 2
    ∧ (∀ m, m ∈ [a; b] → (key m, json.value_of m) ∈ entries).
Proof.
  intros a b ms. apply (MarshalJSON_distinct_keys ms [a; b]); [done|done|].
  refine (bool_decide_unpack _ _). vm_compute. exact I.
Defined.

(** C1 as stated fails when a role holds a space: the pairs (["a b"], ["c"])
    and (["a"], ["b c"]) are distinct and share the key ["a b c"], so the map
    [MarshalJSON] builds for these two members has one entry. *)
Lemma MarshalJSON_space_collision :
  let a := ProjectIAMMember.mk "a b" "c" ∅ "" [] in
  let b := ProjectIAMMember.mk "a" "b c" ∅ "" [] in
  let ms := ProjectIAMMembers.mk [Some a; Some b] [] "proj1" in
  NoDup [(ProjectIAMMember.Role a, ProjectIAMMember.Member a);
         (ProjectIAMMember.Role b, ProjectIAMMember.Member b)]
  ∧ ∃ forEach,
      MarshalJSON ms = (Returned (json.Marshal (merged ms forEach)), ms)
      ∧ forEach = {[ "a b c" := Some b ]}
      ∧ size forEach = 1
      ∧ length (Members ms) = 2.
Proof.
  cbn zeta. split.
  - refine (bool_decide_unpack _ _). vm_compute. exact I.
  - eexists. split; [reflexivity|]. split_and!; [|by vm_compute|done].
    apply map_eq. intros k. unfold key, Sprintf_s_s. cbn.
    destruct (decide (k = "a b c")) as [->|Hne].
    + by rewrite lookup_insert_eq, lookup_singleton_eq.
    + by rewrite !lookup_insert_ne, lookup_singleton_ne.
Qed.

(** C3: when two members of a list of N (no nil pointer) have the same role
    and the same member, the [ForEach] map of the struct [MarshalJSON]
    encodes has fewer than N entries, and so has the [for_each] member of the
    JSON object written; under every key stands the last member of the list
    with that key. *)
Theorem MarshalJSON_shared_key ms l (i j : nat) a b :
  Members ms = Some <$> l → i ≠ j → l !! i = Some a → l !! j = Some b →
  ProjectIAMMember.Role a = ProjectIAMMember.Role b →
  ProjectIAMMember.Member a = ProjectIAMMember.Member b →
  ∃ forEach entries,
    MarshalJSON ms = (Returned (json.Marshal (merged ms forEach)), ms)
    ∧ (size forEach < length l)%nat
    ∧ (∀ l1 m l2, l = (l1 ++ m :: l2)%list → (∀ m', m' ∈ l2 → key m' ≠ key m) →
         forEach !! key m = Some (Some m))
    ∧ json.get "for_each" (json.value_of (merged ms forEach)) = Some (json.JObject entries)
    ∧ (length entries < length l)%nat.
Proof.
  intros E Hij Hi Hj Hrole Hmember.
  destruct (range_Members_spec l ∅) as (forEach & Hret & _ & Hlast & _).
  assert (size forEach < length l)%nat as Hsize.
  { pose proof (range_Members_size_collision l ∅ forEach) as Hlt.
    rewrite map_size_empty in Hlt. apply Hlt; [|done].
    left. intros Hnd. apply Hij.
    apply (NoDup_lookup _ i j (key a) Hnd); rewrite list_lookup_fmap.
    - by rewrite Hi.
    - rewrite Hj. unfold key. by rewrite Hrole, Hmember. }
  destruct (value_of_for_each (merged ms forEach)) as (entries & Hget & Hlen & _).
  { cbn. apply (range_Members_nonempty l ∅); [|done]. by intros ->. }
  exists forEach, entries. split_and!; try done.
  - by apply MarshalJSON_non_nil with l.
  - by rewrite Hlen.
Qed.

Lemma MarshalJSON_shared_key_witness :
  let a := ProjectIAMMember.mk "roles/viewer" "user:a@x.com" ∅ "" ["first"] in
  let b := ProjectIAMMember.mk "roles/viewer" "user:a@x.com" ∅ "" ["second"] in
  let ms := ProjectIAMMembers.mk [Some a; Some b] [] "proj1" in
  ∃ forEach entries,
    MarshalJSON ms = (Returned (json.Marshal (merged ms forEach)), ms)
    ∧ (size forEach < 2)%nat
    ∧ (∀ l1 m l2, [a; b] = (l1 ++ m :: l2)%list → (∀ m', m' ∈ l2 → key m' ≠ key m) →
         forEach !! key m = Some (Some m))
    ∧ json.get "for_each" (json.value_of (merged ms forEach)) = Some (json.JObject entries)
    ∧ (length entries < 2)%nat.
Proof.
  intros a b ms.
  exact (MarshalJSON_shared_key ms [a; b] 0 1 a b eq_refl (O_S 0) eq_refl eq_refl
           eq_refl eq_refl).
Defined.

End Aggregation.

(** ** The example of the specification *)

(** C4: for the members [{roles/viewer, user:a@x.com}] and
    [{roles/editor, user:b@x.com}], whatever the dependencies and the project
    before, [Init("proj1")] succeeds and [MarshalJSON] then writes an object
    with role ["${each.value.role}"], member ["${each.value.member}"], project
    ["proj1"] and a [for_each] object whose keys are exactly
    ["roles/viewer user:a@x.com"] and ["roles/editor user:b@x.com"] (written
    in sorted order), each with its member; without dependencies the bytes
    are the ones given. *)
Theorem MarshalJSON_example (deps : list string) (before : string) :
  let a := ProjectIAMMember.mk "roles/viewer" "user:a@x.com" ∅ "" [] in
  let b := ProjectIAMMember.mk "roles/editor" "user:b@x.com" ∅ "" [] in
  let init := ProjectIAMMembers.Init (ProjectIAMMembers.mk [Some a; Some b] deps before) "proj1" in
  let ms := snd init in
  fst init = None
  ∧ (∃ forEach,
       ProjectIAMMembers.MarshalJSON ms
       = (Returned (json.Marshal (ProjectIAMMembers.merged ms forEach)), ms)
       ∧ dom forEach
         = ({["roles/viewer user:a@x.com"; "roles/editor user:b@x.com"]} : gset string)
       ∧ forEach !! "roles/viewer user:a@x.com" = Some (Some a)
       ∧ forEach !! "roles/editor user:b@x.com" = Some (Some b)
       ∧ json.value_of (ProjectIAMMembers.merged ms forEach)
         = json.JObject
             ([("role", json.JString "${each.value.role}");
               ("member", json.JString "${each.value.member}");
               ("for_each",
                json.JObject [("roles/editor user:b@x.com", json.value_of b);
                              ("roles/viewer user:a@x.com", json.value_of a)]);
               ("project", json.JString "proj1")]
              ++ json.omitempty (Nat.eqb (length deps) 0) "depends_on"
                   (json.JArray (json.JString <$> deps))))
  ∧ fst (ProjectIAMMembers.MarshalJSON
           (snd (ProjectIAMMembers.Init
                   (ProjectIAMMembers.mk [Some a; Some b] [] before) "proj1")))
    = Returned
        (json.with_dquotes
           ("{'role':'${each.value.role}','member':'${each.value.member}',"
            ++ "'for_each':{"
            ++ "'roles/editor user:b@x.com':{'role':'roles/editor','member':'user:b@x.com'},"
            ++ "'roles/viewer user:a@x.com':{'role':'roles/viewer','member':'user:a@x.com'}},"
            ++ "'project':'proj1'}"),
         None).
Proof.
  intros a b init ms. split_and!.
  - done.
  - exists (<["roles/editor user:b@x.com" := Some b]>
              (<["roles/viewer user:a@x.com" := Some a]> ∅)).
    split_and!.
    + done.
    + rewrite !dom_insert_L, dom_empty_L. set_solver.
    + by rewrite lookup_insert_ne, lookup_insert_eq.
    + by rewrite lookup_insert_eq.
    + rewrite value_of_eq. cbn [ProjectIAMMembers.merged ProjectIAMMember.ForEach
        ProjectIAMMember.Role ProjectIAMMember.Member ProjectIAMMember.Project
        ProjectIAMMember.DependsOn ProjectIAMMembers.project ProjectIAMMembers.DependsOn
        ProjectIAMMembers.Init snd ms init].
      by f_equal.
  - by vm_compute.
Qed.

(** ** Decoding and encoding again *)

Section Reencoding.

Import json.

Implicit Types (stack : list frame) (e : expect) (t : token) (v : value).

Local Abbreviation object_below stack := (∃ f, last stack = Some f ∧ object_frame f).

Lemma object_below_top f f' stack :
  object_frame f = object_frame f' → object_below (f :: stack) → object_below (f' :: stack).
Proof.
  intros Hf (g & Hg & Hobj). rewrite last_cons in Hg |- *.
  destruct (last stack) as [g'|]; simplify_eq; eexists; split; try done.
  by rewrite <- Hf.
Qed.

Lemma object_below_push f stack : object_below stack → object_below (f :: stack).
Proof.
  intros (g & Hg & Hobj). exists g. split; [|done]. by rewrite last_cons, Hg.
Qed.

Lemma object_below_pop f stack :
  object_below (f :: stack) → stack = [] ∧ object_frame f ∨ object_below stack.
Proof.
  intros (g & Hg & Hobj). destruct stack as [|f' stack]; [left|right].
  - cbn in Hg. by simplify_eq.
  - exists g. by rewrite last_cons_cons in Hg.
Qed.

Lemma complete_reading_object v stack stack' e' :
  complete v stack = Some (stack', e') →
  (stack = [] → is_object v) → (stack ≠ [] → object_below stack) →
  reading_object stack' e'.
Proof.
  intros Hc Hv Hstack. destruct stack as [|[elems|members|members key] stack];
    cbn in Hc; simplify_eq; cbn.
  - by apply Hv.
  - by apply (object_below_top (FArray elems)), Hstack.
  - by apply (object_below_top (FValue members key)), Hstack.
Qed.

Lemma begin_value_reading_object t stack stack' e' :
  object_below stack → begin_value t stack = Some (stack', e') → reading_object stack' e'.
Proof.
  intros Hstack Hb.
  assert (stack ≠ []) as Hne by (destruct Hstack as (? & ? & _); by destruct stack).
  destruct t; cbn in Hb; simplify_eq; cbn;
    try (by apply object_below_push);
    by (eapply complete_reading_object; [exact Hb|done|done]).
Qed.

Lemma end_array_reading_object stack stack' e' :
  object_below stack → end_array stack = Some (stack', e') → reading_object stack' e'.
Proof.
  intros Hstack He. destruct stack as [|[elems|?|??] stack]; cbn in He; simplify_eq.
  apply object_below_pop in Hstack as [[_ ?]|Hstack]; [done|].
  eapply complete_reading_object; [exact He| |done].
  intros ->. by destruct Hstack as (? & ? & _).
Qed.

Lemma end_object_reading_object stack stack' e' :
  object_below stack → end_object stack = Some (stack', e') → reading_object stack' e'.
Proof.
  intros Hstack He. destruct stack as [|[?|members|??] stack]; cbn in He; simplify_eq.
  eapply complete_reading_object; [exact He|done|].
  intros Hne. by apply object_below_pop in Hstack as [[? _]|Hstack].
Qed.

Lemma step_reading_object stack e t stack' e' :
  reading_object stack e → step stack e t = Some (stack', e') → reading_object stack' e'.
Proof.
  intros Hinv Hstep.
  destruct e; cbn [reading_object] in Hinv; destruct t; cbn [step] in Hstep;
    try discriminate Hstep;
    try (by eapply begin_value_reading_object);
    try (by eapply end_array_reading_object);
    try (by eapply end_object_reading_object);
    try (by simplify_eq).
  - destruct stack as [|[?|members|??] ?]; simplify_eq. cbn.
    by apply (object_below_top (FObject members)).
  - destruct stack as [|[?|?|??] ?]; by simplify_eq.
Qed.

Lemma parse_tokens_reading_object ts :
  ∀ stack e v, reading_object stack e → parse_tokens stack e ts = Some v → is_object v.
Proof.
  induction ts as [|t ts IH]; intros stack e v Hinv Hp; cbn in Hp.
  - destruct e; try done. by simplify_eq.
  - destruct (step stack e t) as [[stack' e']|] eqn:Hstep; [|done].
    eapply IH; [|exact Hp]. by eapply step_reading_object.
Qed.

Lemma scan_brace (s : string) :
  scan Between (String "{" s) = ts ← scan Between s; Some (TLBrace :: ts).
Proof. reflexivity. Qed.

(** A text that starts with an opening brace is an object or is not JSON. *)
Lemma parse_brace (s : string) v : parse (String "{" s) = Some v → is_object v.
Proof.
  unfold parse. rewrite scan_brace.
  destruct (scan Between s) as [ts|]; [|done]. cbn.
  apply parse_tokens_reading_object. cbn. by eexists.
Qed.


(** The encoder's text for a struct starts with an opening brace. *)
Lemma Marshal_brace (m : ProjectIAMMember.t) :
  ∃ members rest,
    value_of m = JObject members
    ∧ Marshal m = (encode (JObject members), None)
    ∧ encode (JObject members) = String "{" rest.
Proof.
  unfold Marshal. rewrite value_of_eq. by eexists _, _.
Qed.



End Reencoding.

(** * Further properties of the methods *)

(** ** [ServiceAccount] over a sequence of calls *)

Lemma ServiceAccount_after_frame (a : ServiceAccount.t) (c : ServiceAccount.call) :
  ServiceAccount.AccountID (ServiceAccount.after a c) = ServiceAccount.AccountID a
  ∧ ServiceAccount.DisplayName (ServiceAccount.after a c) = ServiceAccount.DisplayName a.
Proof.
  destruct c as [projectID| |]; cbn; [|done..].
  unfold ServiceAccount.Init. by destruct (negb _).
Qed.

(** X1: no sequence of calls of [Init], [ID] and [ResourceType] changes the
    account id or the display name of a [ServiceAccount], whether the [Init]
    calls succeed or fail; so [ID] returns the same identifier before and
    after. *)
Theorem ServiceAccount_run_frame (a : ServiceAccount.t) (cs : list ServiceAccount.call) :
  ServiceAccount.AccountID (ServiceAccount.run a cs) = ServiceAccount.AccountID a
  ∧ ServiceAccount.DisplayName (ServiceAccount.run a cs) = ServiceAccount.DisplayName a
  ∧ fst (ServiceAccount.ID (ServiceAccount.run a cs)) = fst (ServiceAccount.ID a).
Proof.
  unfold ServiceAccount.run, ServiceAccount.ID. cbn [fst].
  revert a. induction cs as [|c cs IH]; intros a; cbn [foldl]; [done|].
  destruct (IH (ServiceAccount.after a c)) as (-> & -> & _).
  by destruct (ServiceAccount_after_frame a c) as [-> ->].
Qed.

(** X2: the project of a [ServiceAccount] is set by the first [Init] with a
    non-empty argument and by nothing after it: after any sequence of calls
    the project is the one the instance had when it had one, and otherwise
    the first non-empty argument of an [Init] in the sequence (the empty
    string when there is none). *)
Theorem ServiceAccount_run_project (a : ServiceAccount.t) (cs : list ServiceAccount.call) :
  ServiceAccount.Project (ServiceAccount.run a cs)
  = if String.eqb (ServiceAccount.Project a) "" then first_project cs
    else ServiceAccount.Project a.
Proof.
  destruct (String.eqb_spec (ServiceAccount.Project a) "") as [E|Hne].
  - revert a E. induction cs as [|c cs IH]; intros a E; [done|].
    change (ServiceAccount.run a (c :: cs))
      with (ServiceAccount.run (ServiceAccount.after a c) cs).
    destruct c as [projectID| |]; cbn [first_project ServiceAccount.after];
      [|by apply IH..].
    rewrite ServiceAccount_Init_unbound by done. cbn [snd].
    destruct (String.eqb_spec projectID "") as [->|Hp].
    + by apply IH.
    + by rewrite ServiceAccount_run_bound.
  - by rewrite ServiceAccount_run_bound.
Qed.

(** ** [ProjectIAMMembers] over a sequence of calls *)




(** ** What [MarshalJSON] writes *)

Section Output.

Implicit Types (m a b : ProjectIAMMember.t) (l : list ProjectIAMMember.t).
Implicit Types (ms : ProjectIAMMembers.t) (deps : list string).
Implicit Types (forEach : gmap string (option ProjectIAMMember.t)).

Import ProjectIAMMembers.

Lemma range_Members_panics (members : list (option ProjectIAMMember.t)) :
  ∀ acc, range_Members acc members = Panicked ↔ None ∈ members.
Proof.
  induction members as [|[m|] members IH]; intros acc; cbn.
  - split; [done|]. by intros ?%elem_of_nil.
  - rewrite IH. split; [by right|]. by intros [?|?]%elem_of_cons.
  - split; [left|done].
Qed.


(** A key of some member is the key of a last member with it. *)
Lemma last_with_key l (k : string) :
  k ∈ key <$> l →
  ∃ l1 m l2, l = (l1 ++ m :: l2)%list ∧ key m = k ∧ ∀ m', m' ∈ l2 → key m' ≠ k.
Proof.
  induction l as [|m0 l IH]; cbn; [by intros ?%elem_of_nil|].
  intros Hin. destruct (decide (k ∈ key <$> l)) as [Hl|Hl].
  - destruct (IH Hl) as (l1 & m & l2 & -> & Hk & Hlast).
    by exists (m0 :: l1), m, l2.
  - apply elem_of_cons in Hin as [->|?]; [|done].
    exists [], m0, l. split_and!; [done..|].
    intros m' Hm' Hk. apply Hl. rewrite <- Hk. by apply list_elem_of_fmap_2.
Qed.

(** Under each key the loop leaves the last member with that key, and
    nothing else. *)
Lemma range_Members_lookup l forEach :
  range_Members ∅ (Some <$> l) = Returned forEach →
  ∀ k p, forEach !! k = Some p ↔
    ∃ l1 m l2, p = Some m ∧ l = (l1 ++ m :: l2)%list ∧ key m = k
               ∧ ∀ m', m' ∈ l2 → key m' ≠ k.
Proof.
  intros Hret.
  destruct (range_Members_spec l ∅) as (fe & Hret' & Hout & Hlast & _).
  rewrite Hret in Hret'. simplify_eq.
  intros k p. split.
  - intros Hk. destruct (decide (k ∈ key <$> l)) as [Hin|Hnin].
    + destruct (last_with_key l k Hin) as (l1 & m & l2 & -> & <- & Hl2).
      exists l1, m, l2. split_and!; try done.
      rewrite (Hlast l1 m l2 eq_refl Hl2) in Hk. by simplify_eq.
    + rewrite (Hout k Hnin), lookup_empty in Hk. done.
  - intros (l1 & m & l2 & -> & -> & <- & Hl2). by apply (Hlast l1 m l2).
Qed.

(** X5: for members without a nil pointer, the [for_each] map that
    [MarshalJSON] encodes holds exactly the members' keys, never a nil
    pointer, and under each key the last member of the list with that key:
    nothing is added and only members hidden by a later one are lost. *)
Theorem MarshalJSON_entries l deps (project : string) :
  let ms := ProjectIAMMembers.mk (Some <$> l) deps project in
  ∃ forEach,
    MarshalJSON ms = (Returned (json.Marshal (merged ms forEach)), ms)
    ∧ dom forEach = (list_to_set (key <$> l) : gset string)
    ∧ (∀ k p, forEach !! k = Some p ↔
         ∃ l1 m l2, p = Some m ∧ l = (l1 ++ m :: l2)%list ∧ key m = k
                    ∧ ∀ m', m' ∈ l2 → key m' ≠ k).
Proof.
  intros ms.
  destruct (range_Members_spec l ∅) as (forEach & Hret & _).
  pose proof (range_Members_lookup l forEach Hret) as Hchar.
  exists forEach. split_and!; [by apply MarshalJSON_non_nil with l| |done].
  apply set_eq. intros k. rewrite elem_of_dom, elem_of_list_to_set. split.
  - intros [p Hp]. apply Hchar in Hp as (l1 & m & l2 & _ & -> & <- & _).
    apply list_elem_of_fmap_2, elem_of_app. right. left.
  - intros Hin. destruct (last_with_key l k Hin) as (l1 & m & l2 & -> & <- & Hl2).
    exists (Some m). apply Hchar. by exists l1, m, l2.
Qed.

(** With pairwise distinct keys the loop builds the map of the members by
    their keys. *)
Lemma range_Members_list_to_map l forEach :
  NoDup (key <$> l) →
  range_Members ∅ (Some <$> l) = Returned forEach →
  forEach = list_to_map ((λ m, (key m, Some m)) <$> l).
Proof.
  intros Hnd Hret.
  destruct (range_Members_spec l ∅) as (fe & Hret' & Hout & Hlast & _).
  rewrite Hret in Hret'. simplify_eq.
  assert (((λ m, (key m, Some m)) <$> l).*1 = key <$> l) as Hfst.
  { rewrite <- list_fmap_compose. done. }
  apply map_eq. intros k. destruct (decide (k ∈ key <$> l)) as [Hin|Hnin].
  - destruct (last_with_key l k Hin) as (l1 & m & l2 & -> & <- & Hl2).
    rewrite (Hlast l1 m l2 eq_refl Hl2). symmetry.
    apply elem_of_list_to_map_1; [by rewrite Hfst|].
    apply (list_elem_of_fmap_2 (λ m, (key m, Some m))), elem_of_app. right. left.
  - rewrite (Hout k Hnin), lookup_empty. symmetry.
    apply not_elem_of_list_to_map_1. by rewrite Hfst.
Qed.

(** X6: when the members' keys are pairwise distinct, the bytes
    [MarshalJSON] returns do not depend on the order of the members. *)
Theorem MarshalJSON_order l l' deps (project : string) :
  l ≡ₚ l' → NoDup (key <$> l) →
  fst (MarshalJSON (ProjectIAMMembers.mk (Some <$> l) deps project))
  = fst (MarshalJSON (ProjectIAMMembers.mk (Some <$> l') deps project)).
Proof.
  intros Hperm Hnd.
  assert (NoDup (key <$> l')) as Hnd' by by rewrite <- Hperm.
  destruct (range_Members_spec l ∅) as (fe & Hret & _).
  destruct (range_Members_spec l' ∅) as (fe' & Hret' & _).
  unfold MarshalJSON. cbn [Members]. rewrite Hret, Hret'. cbn [fst].
  rewrite (range_Members_list_to_map l fe Hnd Hret).
  rewrite (range_Members_list_to_map l' fe' Hnd' Hret').
  do 3 f_equal. apply list_to_map_proper; [|by rewrite Hperm].
  rewrite <- list_fmap_compose. done.
Qed.

Lemma MarshalJSON_order_witness :
  let a := ProjectIAMMember.mk "roles/viewer" "user:a@x.com" ∅ "" [] in
  let b := ProjectIAMMember.mk "roles/editor" "user:b@x.com" ∅ "" [] in
  fst (MarshalJSON (ProjectIAMMembers.mk [Some a; Some b] [] "proj1"))
  = fst (MarshalJSON (ProjectIAMMembers.mk [Some b; Some a] [] "proj1")).
Proof.
  intros a b. refine (MarshalJSON_order [a; b] [b; a] [] "proj1" _ _).
  - apply Permutation_swap.
  - refine (bool_decide_unpack _ _). vm_compute. exact I.
Defined.

(** X7: the object [MarshalJSON] writes always has the two placeholders as
    [role] and [member]; it has a [project] member, the receiver's project,
    exactly when that is not empty; a [depends_on] member, the receiver's
    dependencies in their order, exactly when there is one; and a [for_each]
    member exactly when there is a member. *)
Theorem MarshalJSON_fields l deps (project : string) :
  let ms := ProjectIAMMembers.mk (Some <$> l) deps project in
  ∃ forEach,
    let out := json.value_of (merged ms forEach) in
    MarshalJSON ms = (Returned (json.encode out, None), ms)
    ∧ json.get "role" out = Some (json.JString "${each.value.role}")
    ∧ json.get "member" out = Some (json.JString "${each.value.member}")
    ∧ json.get "project" out
      = (if String.eqb project "" then None else Some (json.JString project))
    ∧ json.get "depends_on" out
      = (match deps with [] => None | _ => Some (json.JArray (json.JString <$> deps)) end)
    ∧ (json.get "for_each" out = None ↔ l = []).
Proof.
  intros ms.
  destruct (range_Members_spec l ∅) as (forEach & Hret & _).
  exists forEach. intros out. split; [by apply MarshalJSON_non_nil with l|].
  assert (size forEach = 0 ↔ l = []) as Hsize.
  { split.
    - intros Hz. destruct l as [|m l]; [done|].
      by destruct (range_Members_nonempty (m :: l) ∅ forEach).
    - intros ->. cbn in Hret. simplify_eq. apply map_size_empty. }
  subst out. rewrite value_of_eq. cbn [merged ProjectIAMMember.ForEach ProjectIAMMember.Role
    ProjectIAMMember.Member ProjectIAMMember.Project ProjectIAMMember.DependsOn
    ProjectIAMMembers.project ProjectIAMMembers.DependsOn ms].
  destruct (Nat.eqb_spec (size forEach) 0) as [Hz|Hnz];
    destruct (String.eqb project ""); destruct deps; cbn;
    split_and!; try done; split; try done;
    try (by intros _; apply Hsize); by intros ?%Hsize.
Qed.

(** X8: when no role holds a space, two members have the same key only if
    they have the same role and the same member; a space in a member does
    no harm. *)
Theorem key_collision_free m m' :
  has_space (ProjectIAMMember.Role m) = false →
  has_space (ProjectIAMMember.Role m') = false →
  (key m = key m' ↔
   ProjectIAMMember.Role m = ProjectIAMMember.Role m'
   ∧ ProjectIAMMember.Member m = ProjectIAMMember.Member m').
Proof.
  intros H H'. split; [by apply key_inj|].
  unfold key. by intros [-> ->].
Qed.

Lemma key_collision_free_witness :
  key (ProjectIAMMember.mk "roles/viewer" "user a" ∅ "" [])
  = key (ProjectIAMMember.mk "roles/viewer" "user b" ∅ "" [])
  ↔ "roles/viewer" = "roles/viewer" ∧ "user a" = "user b".
Proof.
  exact (key_collision_free (ProjectIAMMember.mk "roles/viewer" "user a" ∅ "" [])
           (ProjectIAMMember.mk "roles/viewer" "user b" ∅ "" []) eq_refl eq_refl).
Defined.

(** X9: what [MarshalJSON] returns is never accepted back: on any receiver,
    [UnmarshalJSON] of that text returns an error and leaves the receiver as
    it was. *)
Theorem UnmarshalJSON_of_MarshalJSON ms (out : string) (e : error) (receiver : t) :
  fst (MarshalJSON ms) = Returned (out, e) →
  fst (UnmarshalJSON receiver out) ≠ None
  ∧ snd (UnmarshalJSON receiver out) = receiver.
Proof.
  unfold MarshalJSON.
  destruct (range_Members _ _) as [forEach|]; [|done]. cbn [fst].
  destruct (Marshal_brace (merged ms forEach)) as (members & rest & _ & -> & ->).
  intros H. simplify_eq. unfold UnmarshalJSON, json.Unmarshal.
  destruct receiver as [members' deps project]. cbn [Members DependsOn ProjectIAMMembers.project].
  destruct (json.parse _) as [v|] eqn:Hparse; [|done].
  apply parse_brace in Hparse. by destruct v.
Qed.

Lemma UnmarshalJSON_of_MarshalJSON_witness :
  let ms := ProjectIAMMembers.mk
              [Some (ProjectIAMMember.mk "roles/viewer" "user:a@x.com" ∅ "" [])] [] "p" in
  let out := json.encode (json.value_of (merged ms
               {[ "roles/viewer user:a@x.com"
                  := Some (ProjectIAMMember.mk "roles/viewer" "user:a@x.com" ∅ "" []) ]})) in
  fst (UnmarshalJSON ms out) ≠ None ∧ snd (UnmarshalJSON ms out) = ms.
Proof.
  intros ms out. refine (UnmarshalJSON_of_MarshalJSON ms out None ms _).
  vm_compute. reflexivity.
Defined.

End Output.

(** ** Decoding what the encoder writes *)

Section RoundTrip.

Import json.

Implicit Types (v : value) (s rest : string) (c : ascii).

(** Induction on a JSON value, with the property at hand for the elements
    of an array and the members of an object. *)
Lemma value_nested_ind (P : value → Prop) :
  P JNull → (∀ b, P (JBool b)) → (∀ literal, P (JNumber literal)) → (∀ s, P (JString s)) →
  (∀ elems, Forall P elems → P (JArray elems)) →
  (∀ members, Forall (λ kv, P (snd kv)) members → P (JObject members)) →
  ∀ v, P v.
Proof.
  intros Hnull Hbool Hnumber Hstring Harray Hobject.
  fix IH 1. intros [|b|literal|s|elems|members].
  - exact Hnull.
  - apply Hbool.
  - apply Hnumber.
  - apply Hstring.
  - apply Harray. induction elems as [|v elems IHelems]; constructor.
    + apply IH.
    + exact IHelems.
  - apply Hobject. induction members as [|[k v] members IHmembers]; constructor.
    + apply IH.
    + exact IHmembers.
Qed.

Lemma store_member_object (cur : option ProjectIAMMember.t) members :
  store_member cur (JObject members)
  = let '(p, e) := store_fields (default ProjectIAMMember.zero cur) members in (Some p, e).
Proof. reflexivity. Qed.

Lemma string_app_cons c s1 s2 : String c s1 ++ s2 = String c (s1 ++ s2).
Proof. reflexivity. Qed.

Lemma string_app_assoc s1 s2 s3 : (s1 ++ s2) ++ s3 = s1 ++ (s2 ++ s3).
Proof.
  induction s1 as [|c s1 IH]; [done|]. by rewrite !string_app_cons, IH.
Qed.

Lemma list_ascii_of_string_app s1 s2 :
  list_ascii_of_string (s1 ++ s2)
  = (list_ascii_of_string s1 ++ list_ascii_of_string s2)%list.
Proof.
  induction s1 as [|c s1 IH]; [done|]. rewrite string_app_cons. cbn. by rewrite IH.
Qed.

(** What the encoder writes for one ASCII byte. *)
Local Abbreviation piece c := (fst (string_step (String c ""))).

Lemma string_loop_ascii c s :
  (utf8.byte c <? 0x80)%N = true →
  string_loop 0 (String c s) = piece c ++ string_loop 0 s.
Proof.
  intros Hc. cbn [string_loop]. unfold string_step. rewrite Hc.
  repeat (match goal with |- context [if ?b then _ else _] => destruct b end); done.
Qed.

Lemma scan_piece c :
  (utf8.byte c <? 0x80)%N = true →
  ∀ seen tail,
    scan (InString seen) (piece c ++ tail)
    = scan (InString (rev (list_ascii_of_string (piece c)) ++ seen)) tail.
Proof.
  destruct c as [[] [] [] [] [] [] [] []]; intros Hc; try discriminate Hc;
    intros seen tail; reflexivity.
Qed.

Lemma unquote_piece c :
  (utf8.byte c <? 0x80)%N = true →
  ∀ tail, unquote_loop 0 (piece c ++ tail) = r ← unquote_loop 0 tail; Some (String c r).
Proof.
  destruct c as [[] [] [] [] [] [] [] []]; intros Hc; try discriminate Hc;
    intros tail; reflexivity.
Qed.

Lemma is_ascii_cons c s :
  is_ascii (String c s) = true → (utf8.byte c <? 0x80)%N = true ∧ is_ascii s = true.
Proof. cbn. by intros [? ?]%andb_true_iff. Qed.

Lemma scan_body s :
  is_ascii s = true →
  ∀ seen tail,
    scan (InString seen) (string_loop 0 s ++ tail)
    = scan (InString (rev (list_ascii_of_string (string_loop 0 s)) ++ seen)) tail.
Proof.
  induction s as [|c s IH]; intros Hs seen tail; [done|].
  apply is_ascii_cons in Hs as [Hc Hs].
  rewrite (string_loop_ascii c s Hc), string_app_assoc, (scan_piece c Hc), (IH Hs).
  by rewrite list_ascii_of_string_app, rev_app_distr, <- (assoc_L (++)%list).
Qed.

Lemma unquote_ascii s : is_ascii s = true → unquote (string_loop 0 s) = Some s.
Proof.
  unfold unquote. induction s as [|c s IH]; intros Hs; [done|].
  apply is_ascii_cons in Hs as [Hc Hs].
  by rewrite (string_loop_ascii c s Hc), (unquote_piece c Hc), (IH Hs).
Qed.

(** A quoted ASCII string is scanned as that string. *)
Lemma scan_quote s rest :
  is_ascii s = true →
  scan Between (quote s ++ rest) = ts ← scan Between rest; Some (TString s :: ts).
Proof.
  intros Hs. unfold quote. rewrite string_app_cons, string_app_assoc.
  change (scan Between (String dquote ?x)) with (scan (InString []) x).
  rewrite (scan_body s Hs). rewrite string_app_cons.
  change (scan (InString ?seen) (String dquote ?x))
    with (str ← unquote (text_of seen); ts ← scan Between x; Some (TString str :: ts)).
  unfold text_of. rewrite app_nil_r, rev_involutive, string_of_list_ascii_of_string.
  by rewrite (unquote_ascii s Hs).
Qed.

Lemma scans_quote s : is_ascii s = true → scans (quote s) [TString s].
Proof. intros Hs rest _. by rewrite scan_quote. Qed.

(** A punctuation byte followed by anything. *)
Lemma scan_punct c t rest :
  punct c = Some t → is_space c = false → Ascii.eqb c dquote = false →
  scan Between (String c rest) = ts ← scan Between rest; Some (t :: ts).
Proof.
  intros Hp Hs Hq. cbn [scan]. unfold between_tokens. by rewrite Hs, Hq, Hp.
Qed.

Lemma scans_null : scans "null" [TNull].
Proof.
  intros [|c rest] Hd; [done|]. cbn in Hd.
  change (scan Between ("null" ++ String c rest))
    with (scan (InWord ["l"; "l"; "u"; "n"]%char) (String c rest)).
  cbn [scan]. rewrite Hd. cbn.
  by destruct (between_tokens c _).
Qed.


Lemma string_app_nil_r s : s ++ "" = s.
Proof. induction s as [|c s IH]; [done|]. by rewrite string_app_cons, IH. Qed.

Lemma scans_nil : scans "" [].
Proof.
  intros rest _. change ("" ++ rest) with rest. by destruct (scan Between rest).
Qed.

Lemma scans_after_punct c t s ts :
  punct c = Some t → is_space c = false → Ascii.eqb c dquote = false →
  scans s ts → scans (String c s) (t :: ts).
Proof.
  intros Hp Hs Hq H rest Hd. rewrite string_app_cons, (scan_punct c t _ Hp Hs Hq), (H rest Hd).
  by destruct (scan Between rest).
Qed.

Lemma scans_after_quote k s ts :
  is_ascii k = true → scans s ts → scans (quote k ++ s) (TString k :: ts).
Proof.
  intros Hk H rest Hd. rewrite string_app_assoc, (scan_quote k _ Hk), (H rest Hd).
  by destruct (scan Between rest).
Qed.

Lemma scans_before_punct s1 t1 c s2 t2 :
  is_word_char c = false →
  scans s1 t1 → scans (String c s2) t2 → scans (s1 ++ String c s2) (t1 ++ t2).
Proof.
  intros Hc H1 H2 rest Hd.
  rewrite string_app_assoc, string_app_cons, (H1 (String c (s2 ++ rest)) Hc).
  rewrite <- string_app_cons, (H2 rest Hd).
  destruct (scan Between rest); cbn; [|done]. by rewrite (assoc_L (++)%list).
Qed.

Lemma encode_array elems :
  encode (JArray elems) = String "[" (String.concat "," (List.map encode elems) ++ "]").
Proof. reflexivity. Qed.

Lemma encode_object members :
  encode (JObject members)
  = String "{" (String.concat ","
                  (List.map (λ kv, quote (fst kv) ++ ":" ++ encode (snd kv)) members) ++ "}").
Proof. reflexivity. Qed.

Lemma concat_cons_cons (x y : string) (l : list string) :
  String.concat "," (x :: y :: l) = x ++ String "," (String.concat "," (y :: l)).
Proof. reflexivity. Qed.

Lemma scans_elems vs :
  Forall (λ v, ascii_value v = true → scans (encode v) (tokens v)) vs →
  forallb ascii_value vs = true →
  ∀ v0, scans (encode v0) (tokens v0) →
    scans (String.concat "," (encode v0 :: List.map encode vs) ++ "]")
      (tokens v0 ++ rest_elems tokens vs).
Proof.
  induction 1 as [|v vs Hv _ IH]; intros Hall v0 H0.
  - change (String.concat "," [encode v0]) with (encode v0).
    apply scans_before_punct; [done|done|].
    by apply scans_after_punct, scans_nil.
  - cbn in Hall. apply andb_true_iff in Hall as [Ha Hall].
    cbn [List.map rest_elems]. rewrite concat_cons_cons, string_app_assoc, string_app_cons.
    apply scans_before_punct; [done|done|].
    apply scans_after_punct; [done..|]. by apply IH, Hv.
Qed.

Lemma scans_members kvs :
  Forall (λ kv, ascii_value (snd kv) = true → scans (encode (snd kv)) (tokens (snd kv))) kvs →
  forallb (λ kv, is_ascii (fst kv) && ascii_value (snd kv)) kvs = true →
  ∀ kv0, is_ascii (fst kv0) = true → scans (encode (snd kv0)) (tokens (snd kv0)) →
    scans (String.concat ","
             (List.map (λ kv, quote (fst kv) ++ ":" ++ encode (snd kv)) (kv0 :: kvs)) ++ "}")
      (TString (fst kv0) :: TColon :: tokens (snd kv0) ++ rest_members tokens kvs).
Proof.
  induction 1 as [|kv kvs Hkv _ IH]; intros Hall kv0 Hk0 H0.
  - change (String.concat "," _) with (quote (fst kv0) ++ String ":" (encode (snd kv0))).
    rewrite string_app_assoc, string_app_cons.
    apply scans_after_quote; [done|]. apply scans_after_punct; [done..|].
    apply scans_before_punct; [done|done|].
    by apply scans_after_punct, scans_nil.
  - cbn in Hall. apply andb_true_iff in Hall as [[Hk Ha]%andb_true_iff Hall].
    cbn [List.map]. rewrite concat_cons_cons.
    change (quote (fst kv0) ++ ":" ++ encode (snd kv0))
      with (quote (fst kv0) ++ String ":" (encode (snd kv0))).
    rewrite !string_app_assoc, !string_app_cons. cbn [rest_members].
    apply scans_after_quote; [done|]. apply scans_after_punct; [done..|].
    apply scans_before_punct; [done|done|].
    apply scans_after_punct; [done..|].
    by apply (IH Hall kv), Hkv.
Qed.

(** The text of a value of [null], ASCII strings, arrays and objects is
    scanned as the value's tokens. *)
Lemma scans_encode v : ascii_value v = true → scans (encode v) (tokens v).
Proof.
  induction v as [|b|literal|s|elems IH|members IH] using value_nested_ind; intros Hv;
    try discriminate Hv.
  - apply scans_null.
  - by apply scans_quote.
  - rewrite encode_array. destruct IH as [|v0 vs Hv0 IH].
    + by apply scans_after_punct, scans_after_punct, scans_nil.
    + cbn in Hv. apply andb_true_iff in Hv as [Ha Hall].
      apply scans_after_punct; [done..|]. by apply scans_elems, Hv0.
  - rewrite encode_object. destruct IH as [|kv0 kvs Hkv0 IH].
    + by apply scans_after_punct, scans_after_punct, scans_nil.
    + cbn in Hv. apply andb_true_iff in Hv as [[Hk Ha]%andb_true_iff Hall].
      apply scans_after_punct; [done..|]. by apply scans_members, Hkv0.
Qed.


(** Where a value may start. *)
Local Abbreviation starts e := (e = EValue ∨ e = EValueOrEnd).

(** The tokens of a value are parsed as the value. *)
Local Abbreviation parses v :=
  (∀ stack e ts, starts e →
     parse_tokens stack e (tokens v ++ ts)
     = '(stack', e') ← complete v stack; parse_tokens stack' e' ts).

Lemma parse_rest_elems stack ts vs :
  Forall (λ v, parses v) vs →
  ∀ acc,
    parse_tokens (FArray acc :: stack) ECommaOrEnd (rest_elems tokens vs ++ ts)
    = '(stack', e') ← complete (JArray (rev acc ++ vs)) stack; parse_tokens stack' e' ts.
Proof.
  induction 1 as [|v vs Hv _ IH]; intros acc.
  - by rewrite app_nil_r.
  - cbn [rest_elems]. rewrite <- !app_comm_cons, <- (assoc_L (++)%list).
    cbn [parse_tokens step mbind option_bind]. rewrite Hv by by left.
    cbn [complete mbind option_bind]. rewrite IH. cbn [rev].
    by rewrite <- (assoc_L (++)%list).
Qed.

Lemma parse_rest_members stack ts kvs :
  Forall (λ kv, parses (snd kv)) kvs →
  ∀ acc,
    parse_tokens (FObject acc :: stack) ECommaOrEnd (rest_members tokens kvs ++ ts)
    = '(stack', e') ← complete (JObject (rev acc ++ kvs)) stack; parse_tokens stack' e' ts.
Proof.
  induction 1 as [|[k v] kvs Hv _ IH]; intros acc.
  - by rewrite app_nil_r.
  - cbn [rest_members fst snd]. rewrite <- !app_comm_cons, <- (assoc_L (++)%list).
    cbn [parse_tokens step mbind option_bind]. rewrite Hv by by left.
    cbn [complete mbind option_bind]. rewrite IH. cbn [rev].
    by rewrite <- (assoc_L (++)%list).
Qed.

Lemma parse_tokens_value v : parses v.
Proof.
  induction v as [|b|literal|s|elems IH|members IH] using value_nested_ind;
    intros stack e ts He.
  - by destruct He as [-> | ->].
  - by destruct b, He as [-> | ->].
  - by destruct He as [-> | ->].
  - by destruct He as [-> | ->].
  - destruct IH as [|v0 vs Hv0 IH]; cbn [tokens].
    + by destruct He as [-> | ->].
    + rewrite <- !app_comm_cons, <- (assoc_L (++)%list).
      transitivity (parse_tokens (FArray [] :: stack) EValueOrEnd
                      (tokens v0 ++ rest_elems tokens vs ++ ts));
        [by destruct He as [-> | ->]|].
      rewrite Hv0 by by right. cbn [complete mbind option_bind].
      by rewrite parse_rest_elems.
  - destruct IH as [|[k0 v0] kvs Hv0 IH]; cbn [tokens fst snd].
    + by destruct He as [-> | ->].
    + rewrite <- !app_comm_cons, <- (assoc_L (++)%list).
      transitivity (parse_tokens (FValue [] k0 :: stack) EValue
                      (tokens v0 ++ rest_members tokens kvs ++ ts));
        [by destruct He as [-> | ->]|].
      rewrite Hv0 by by left. cbn [complete mbind option_bind].
      by rewrite parse_rest_members.
Qed.

(** The compact text of a value of [null], ASCII strings, arrays and
    objects denotes that value. *)
Lemma parse_encode v : ascii_value v = true → parse (encode v) = Some v.
Proof.
  intros Hv. unfold parse.
  rewrite <- (string_app_nil_r (encode v)), (scans_encode v Hv "" I). cbn.
  by rewrite (parse_tokens_value v [] EValue [] (or_introl eq_refl)).
Qed.


(** *** The text [MarshalJSON] writes *)

Lemma is_ascii_app s1 s2 : is_ascii (s1 ++ s2) = is_ascii s1 && is_ascii s2.
Proof.
  induction s1 as [|c s1 IH]; [done|]. rewrite string_app_cons. cbn.
  by rewrite IH, andb_assoc.
Qed.

Lemma ascii_value_of (m : ProjectIAMMember.t) :
  ascii_value (value_of m) = true →
  is_ascii (ProjectIAMMembers.key m) = true.
Proof.
  rewrite value_of_eq. cbn [ascii_value app forallb fst snd].
  change (is_ascii "role") with true. change (is_ascii "member") with true. cbn [andb].
  intros H. apply andb_true_iff in H as [Hr H]. apply andb_true_iff in H as [Hm _].
  unfold ProjectIAMMembers.key, Sprintf_s_s. by rewrite !is_ascii_app, Hr, Hm.
Qed.

Lemma ascii_merged (l : list ProjectIAMMember.t) (deps : list string) (project : string)
    (forEach : gmap string (option ProjectIAMMember.t)) :
  Forall (λ m, ascii_value (value_of m) = true) l →
  is_ascii project = true → forallb is_ascii deps = true →
  ProjectIAMMembers.range_Members ∅ (Some <$> l) = Returned forEach →
  ascii_value (value_of (ProjectIAMMembers.merged
                           (ProjectIAMMembers.mk (Some <$> l) deps project) forEach)) = true.
Proof.
  intros Hl Hproject Hdeps Hret. rewrite value_of_eq.
  cbn [ascii_value ProjectIAMMembers.merged ProjectIAMMember.ForEach ProjectIAMMember.Role
       ProjectIAMMember.Member ProjectIAMMember.Project ProjectIAMMember.DependsOn
       ProjectIAMMembers.project ProjectIAMMembers.DependsOn].
  rewrite !forallb_app.
  apply andb_true_iff; split; [reflexivity|].
  apply andb_true_iff; split; [|apply andb_true_iff; split].
  - unfold omitempty. destruct (Nat.eqb (size forEach) 0); [done|].
    cbn [forallb fst snd ascii_value]. change (is_ascii "for_each") with true.
    rewrite andb_true_r. cbn [andb].
    apply forallb_forall. intros [k x] Hin%list_elem_of_In.
    rewrite sort_entries_perm, elem_of_map_to_list, lookup_fmap_Some in Hin.
    destruct Hin as (p & <- & Hp).
    apply (range_Members_lookup l forEach Hret) in Hp as (l1 & m & l2 & -> & -> & <- & _).
    rewrite Forall_forall in Hl. cbn [fst snd].
    assert (ascii_value (value_of m) = true) as Hm.
    { apply Hl, elem_of_app. right. left. }
    by rewrite (ascii_value_of m Hm), Hm.
  - unfold omitempty. destruct (String.eqb project ""); [done|].
    cbn [forallb fst snd ascii_value]. change (is_ascii "project") with true.
    by rewrite Hproject.
  - unfold omitempty. destruct (Nat.eqb (length deps) 0); [done|].
    cbn [forallb fst snd ascii_value]. change (is_ascii "depends_on") with true.
    rewrite andb_true_r. cbn [andb].
    clear -Hdeps. induction deps as [|d deps IH]; [done|]. cbn in *.
    apply andb_true_iff in Hdeps as [-> Hdeps]. by apply IH.
Qed.

(** X12: for members, project and dependencies made of ASCII strings,
    what [MarshalJSON] returns is well-formed JSON: the text denotes the
    object that was encoded; and [UnmarshalJSON], on any receiver, rejects
    it as a value of the wrong kind, leaving the receiver as it was. *)
Theorem MarshalJSON_well_formed (l : list ProjectIAMMember.t) (deps : list string)
    (project : string) (receiver : ProjectIAMMembers.t) :
  Forall (λ m, ascii_value (value_of m) = true) l →
  is_ascii project = true → forallb is_ascii deps = true →
  let ms := ProjectIAMMembers.mk (Some <$> l) deps project in
  ∃ forEach,
    let out := value_of (ProjectIAMMembers.merged ms forEach) in
    ProjectIAMMembers.MarshalJSON ms = (Returned (encode out, None), ms)
    ∧ parse (encode out) = Some out
    ∧ ProjectIAMMembers.UnmarshalJSON receiver (encode out)
      = (Some UnmarshalTypeError, receiver).
Proof.
  intros Hl Hproject Hdeps ms.
  destruct (range_Members_spec l ∅) as (forEach & Hret & _).
  exists forEach. intros out.
  assert (parse (encode out) = Some out) as Hparse.
  { by apply parse_encode, ascii_merged. }
  split_and!; [by apply MarshalJSON_non_nil with l|done|].
  unfold ProjectIAMMembers.UnmarshalJSON, Unmarshal. rewrite Hparse.
  subst out. rewrite value_of_eq. by destruct receiver.
Qed.

Lemma MarshalJSON_well_formed_witness :
  let a := ProjectIAMMember.mk "roles/viewer" "user:a@x.com" ∅ "" [] in
  let ms := ProjectIAMMembers.mk [Some a] ["dep"] "proj1" in
  ∃ forEach,
    let out := value_of (ProjectIAMMembers.merged ms forEach) in
    ProjectIAMMembers.MarshalJSON ms = (Returned (encode out, None), ms)
    ∧ parse (encode out) = Some out
    ∧ ProjectIAMMembers.UnmarshalJSON ms (encode out) = (Some UnmarshalTypeError, ms).
Proof.
  intros a ms.
  refine (MarshalJSON_well_formed [a] ["dep"] "proj1" ms _ eq_refl eq_refl).
  constructor; [|constructor]. vm_compute. reflexivity.
Defined.

(** *** Storing what [value_of] writes *)

Implicit Types (m : ProjectIAMMember.t) (p : option ProjectIAMMember.t).
Implicit Types (fe cur : gmap string (option ProjectIAMMember.t)).










(** *** [UnmarshalJSON] on a JSON array *)

Lemma store_member_nil (cur : option ProjectIAMMember.t) v :
  fst (store_member cur v) = None ↔ v = JNull.
Proof.
  destruct v as [|b|literal|s|elems|members]; try done.
  rewrite store_member_object. by destruct (store_fields _ _).
Qed.

Lemma store_member_elems_nil (vs : list value) :
  ∀ (cur : list (option ProjectIAMMember.t)),
    length (fst (store_member_elems cur vs)) = length vs
    ∧ ∀ i : nat, fst (store_member_elems cur vs) !! i = Some None ↔ vs !! i = Some JNull.
Proof.
  induction vs as [|v vs IH]; intros cur; [done|].
  cbn [store_member_elems]. pose proof (store_member_nil (default None (head cur)) v) as Hv.
  destruct (store_member _ v) as [p e]. destruct (IH (tl cur)) as [Hlen Hnil].
  destruct (store_member_elems _ vs) as [ps e']. cbn [fst length] in *.
  split; [by rewrite Hlen|]. intros [|i]; cbn; [|apply Hnil].
  split; intros [= H]; f_equal; by apply Hv.
Qed.

(** X10: when the text is a JSON array, [UnmarshalJSON] leaves exactly one
    member per element, whatever the receiver held and whether or not it
    reports an error; the member is a nil pointer exactly where the element
    is [null]; so [MarshalJSON] on the receiver panics afterwards exactly when
    the array has a [null] element. *)
Theorem UnmarshalJSON_array (ms : ProjectIAMMembers.t) (b : string) (elems : list value) :
  parse b = Some (JArray elems) →
  let ms' := snd (ProjectIAMMembers.UnmarshalJSON ms b) in
  length (ProjectIAMMembers.Members ms') = length elems
  ∧ (∀ i : nat, ProjectIAMMembers.Members ms' !! i = Some None ↔ elems !! i = Some JNull)
  ∧ (fst (ProjectIAMMembers.MarshalJSON ms') = Panicked ↔ JNull ∈ elems).
Proof.
  intros Hparse ms'.
  assert (ProjectIAMMembers.Members ms'
          = fst (store_member_elems (ProjectIAMMembers.Members ms) elems)) as E.
  { unfold ms', ProjectIAMMembers.UnmarshalJSON, Unmarshal. rewrite Hparse.
    cbn [store_Members]. by destruct (store_member_elems _ _). }
  destruct (store_member_elems_nil elems (ProjectIAMMembers.Members ms)) as [Hlen Hnil].
  rewrite <- E in Hlen, Hnil. split_and!; [done..|].
  assert (None ∈ ProjectIAMMembers.Members ms' ↔ JNull ∈ elems) as <-.
  { rewrite !list_elem_of_lookup. by setoid_rewrite Hnil. }
  rewrite <- (range_Members_panics (ProjectIAMMembers.Members ms') ∅).
  unfold ProjectIAMMembers.MarshalJSON.
  by destruct (ProjectIAMMembers.range_Members _ _).
Qed.

Lemma UnmarshalJSON_array_witness :
  let b := with_dquotes "[{'role':'roles/viewer','member':'user:a@x.com'}, null]" in
  let elems := [JObject [("role", JString "roles/viewer"); ("member", JString "user:a@x.com")];
                JNull] in
  let ms' := snd (ProjectIAMMembers.UnmarshalJSON (ProjectIAMMembers.mk [] [] "") b) in
  length (ProjectIAMMembers.Members ms') = length elems
  ∧ (∀ i : nat, ProjectIAMMembers.Members ms' !! i = Some None ↔ elems !! i = Some JNull)
  ∧ (fst (ProjectIAMMembers.MarshalJSON ms') = Panicked ↔ JNull ∈ elems).
Proof.
  intros b elems.
  exact (UnmarshalJSON_array (ProjectIAMMembers.mk [] [] "") b elems eq_refl).
Defined.



End RoundTrip.
